(** * SyncedAudio: the UTC-anchored playback synchronisation engine

    A shallow embedding of the synchronisation core of
    [src/modules/synced-audio.js] (the [SyncedAudio] web component):
    the clock model ([utc], [targetTime], [lag]), the buffered-range
    helpers ([isPositionBuffered], [findSafeSeekPosition],
    [getCurrentBufferedEnd]) and the periodic corrector ([sync], [seek]).

    Numbers.  The component computes with JavaScript numbers.  Every finite
    double is a rational, and the properties studied here are stated over
    the reals, so a number is modelled as an exact rational [Q]; rounding
    is not modelled.  [Date.now()] yields whole milliseconds and is a [Z].
    A value that may be [undefined] is an [option]. *)

From Stdlib Require Import ZArith QArith Qround Qminmax Qabs.
From Stdlib Require Import List Sorted Bool Lia Lqa.
Import ListNotations.

Open Scope Q_scope.

(** ** JavaScript number primitives *)

Module JsNum.

  (** [x < y] as a boolean test. *)
Definition Qltb (x y : Q) : bool := negb (Qle_bool y x).

  (** Rounding toward zero, the integer quotient used by [%]. *)
Definition Qtrunc (q : Q) : Z :=
    if Qle_bool 0 q then Qfloor q else Qceiling q.

  (** The remainder operator [x % y] on finite numbers with [y] non-zero:
      [x - y * trunc (x / y)], carrying the sign of the dividend. *)
Definition fmod (x y : Q) : Q := x - y * inject_Z (Qtrunc (x / y)).

  (** Truthiness of a possibly-undefined number: [undefined] and [0] are
      falsy. *)
Definition truthy (v : option Q) : bool :=
    match v with
    | None => false
    | Some q => negb (Qeq_bool q 0)
    end.

Definition truthyZ (v : option Z) : bool :=
    match v with
    | None => false
    | Some z => negb (z =? 0)%Z
    end.

  (** [+attr || dflt] where the attribute, once converted, is a number or
      NaN ([None]). *)
Definition num_or (attr : option Q) (dflt : Q) : Q :=
    match attr with
    | Some q => if Qeq_bool q 0 then dflt else q
    | None => dflt
    end.

End JsNum.
Import JsNum.

(** ** Clock model *)

(** The configuration fields of the component that the clock model and the
    corrector read. *)
Record Component : Type := mkComponent {
  duration : Q;        (* loop duration, seconds *)
  baseAllowed : Q;     (* base drift tolerance, milliseconds *)
  audioLatency : Q;    (* user supplied latency, milliseconds *)
  lat : Q;             (* measured pipeline latency, seconds *)
  isAndroid : bool;
  isIOS : bool;
  offset : Q;          (* epoch offset, seconds *)
  IOS_LAG : Q;
  AND_LAG : Q
}.

(** [connectedCallback]: the numeric configuration read from attributes. *)
Definition connectedCallback
  (attr_duration attr_allowed attr_latency attr_offset : option Q)
  (android ios : bool) (ios_lag and_lag : Q) : Component :=
  {| duration := num_or attr_duration 1800;
     baseAllowed := num_or attr_allowed 300;
     audioLatency := num_or attr_latency 0;
     lat := 0;
     isAndroid := android;
     isIOS := ios;
     offset := num_or attr_offset 0;
     IOS_LAG := ios_lag;
     AND_LAG := and_lag |}.

(** [this.allowed = this.baseAllowed * ((isIOS || isAndroid) ? 2 : 1)] *)
Definition allowed (c : Component) : Q :=
  baseAllowed c * (if isIOS c || isAndroid c then 2 else 1).

(** [lag(){ return isIOS ? IOS_LAG : isAndroid ? AND_LAG : 0; }] *)
Definition lag (c : Component) : Q :=
  if isIOS c then IOS_LAG c else if isAndroid c then AND_LAG c else 0.

(** [Date.now()/1000] *)
Definition seconds (now : Z) : Q := inject_Z now / 1000.

(** [utc(){ return ((Date.now()/1000 + offset) % duration + duration) % duration; }] *)
Definition utc (c : Component) (now : Z) : Q :=
  fmod (fmod (seconds now + offset c) (duration c) + duration c) (duration c).

(** [targetTime()] *)
Definition targetTime (c : Component) (now : Z) : Q :=
  let totalLatency := lat c + lag c + audioLatency c / 1000 in
  fmod (fmod (seconds now + offset c + totalLatency) (duration c) + duration c)
       (duration c).

(** The specification's wording of the clock model, to be compared with the
    code above. *)
Module ClockSpec.

  (** [normalize(x) = ((x mod L) + L) mod L] *)
Definition normalize (L x : Q) : Q := fmod (fmod x L + L) L.

  (** measured + user-supplied/1000 + platform seek lag *)
Definition totalCompensation (c : Component) : Q :=
    lat c + audioLatency c / 1000 + lag c.

Definition targetPosition (c : Component) (now : Z) : Q :=
    normalize (duration c) (seconds now + offset c + totalCompensation c).

End ClockSpec.

(** ** Buffered ranges *)

(** One entry of [audio.buffered]: [buffered.start(i)], [buffered.end(i)]. *)
Record Range : Type := mkRange { rstart : Q; rend : Q }.

(** [audio.duration]: NaN until the metadata is loaded, [Infinity] for an
    unbounded stream, otherwise a length in seconds. *)
Inductive MediaDuration : Type :=
| DurNaN
| DurInfinity
| DurSeconds (d : Q).

(** The fields of the [<audio>] element that the engine reads. *)
Module Audio.
Record t : Type := mk {
    currentTime : Q;
    paused : bool;
    duration : MediaDuration;
    buffered : list Range;
    src_includes_mp3 : bool      (* [src.includes('.mp3')] *)
  }.

  (** [audio.currentTime = pos] *)
Definition setCurrentTime (a : t) (pos : Q) : t :=
    mk pos (paused a) (duration a) (buffered a) (src_includes_mp3 a).
End Audio.

(** [p >= start && p <= end] *)
Definition inRange (r : Range) (p : Q) : bool :=
  Qle_bool (rstart r) p && Qle_bool p (rend r).

(** The loop of [isPositionBuffered]. *)
Fixpoint isBufferedLoop (position : Q) (rs : list Range) : bool :=
  match rs with
  | [] => false
  | r :: rs' => if inRange r position then true else isBufferedLoop position rs'
  end.

Definition isPositionBuffered (a : Audio.t) (position : Q) : bool :=
  match Audio.buffered a with
  | [] => false
  | rs => isBufferedLoop position rs
  end.

(** The loop of [findSafeSeekPosition], [safestPosition] being the loop
    variable. *)
Fixpoint safeSeekLoop (targetTime safestPosition : Q) (rs : list Range) : Q :=
  match rs with
  | [] => safestPosition
  | r :: rs' =>
      if inRange r targetTime then targetTime
      else if Qltb safestPosition (rstart r) && Qle_bool (rstart r) targetTime
      then safeSeekLoop targetTime (Qmin (rend r - 0.5) targetTime) rs'
      else safeSeekLoop targetTime safestPosition rs'
  end.

Definition findSafeSeekPosition (a : Audio.t) (targetTime : Q) : Q :=
  match Audio.buffered a with
  | [] => Audio.currentTime a
  | rs => safeSeekLoop targetTime (Audio.currentTime a) rs
  end.

(** The loop of [getCurrentBufferedEnd], [furthestEnd] being the loop
    variable; the [break] leaves with the end of the containing range. *)
Fixpoint bufferedEndLoop (currentTime furthestEnd : Q) (rs : list Range) : Q :=
  match rs with
  | [] => furthestEnd
  | r :: rs' =>
      if inRange r currentTime then rend r
      else if Qltb currentTime (rstart r)
      then bufferedEndLoop currentTime (Qmax furthestEnd (rend r)) rs'
      else bufferedEndLoop currentTime furthestEnd rs'
  end.

Definition getCurrentBufferedEnd (a : Audio.t) : Q :=
  match Audio.buffered a with
  | [] => Audio.currentTime a
  | rs => bufferedEndLoop (Audio.currentTime a) (Audio.currentTime a) rs
  end.

(** Vocabulary for the statements about ranges. *)
Definition contains (p : Q) (r : Range) : Prop := rstart r <= p /\ p <= rend r.

(** A range whose start lies between the current position and the target. *)
Definition qualifies (cur target : Q) (r : Range) : Prop :=
  cur < rstart r /\ rstart r <= target.

Definition wellFormed (r : Range) : Prop := rstart r <= rend r.

(** Ranges as [TimeRanges] delivers them: each a proper interval, each
    ending no later than the next begins. *)
Inductive ordered : list Range -> Prop :=
| ordered_nil : ordered []
| ordered_cons r rs :
    wellFormed r ->
    Forall (fun r' => rend r <= rstart r') rs ->
    ordered rs ->
    ordered (r :: rs).

(** ** The corrector *)

(** The private fields that [sync] keeps between calls; [None] is
    [undefined]. *)
Record SyncState : Type := mkState {
  _lastCurrentTime : option Q;
  _stuckCount : option Z;
  _looping : bool;
  _lastSeek : option Z
}.

Definition initialState : SyncState := mkState None None false None.

(** Which assignment to [audio.currentTime] an effect stands for. *)
Inductive SeekKind : Type :=
| LoopSeek          (* seamless loop detection *)
| SafeAdvance       (* MP3 safe advance *)
| BufferEdgeJump    (* MP3 buffer-edge jump *)
| ForceJump         (* MP3 force jump *)
| DirectSeek.       (* HLS and other formats *)

(** What one call of [sync] asks of its environment. *)
Inductive Effect : Type :=
| SetCurrentTime (kind : SeekKind) (pos : Q)
| RecoverFromStuck (targetTime : Q)
| EnsureMP3Playback
| SetTimeoutLoopingOff (delay : Z).

(** [Math.abs(drift) > this.allowed] *)
Definition driftExceeds (c : Component) (drift : Q) : bool :=
  Qltb (allowed c) (Qabs drift).

(** [!this._lastSeek || (now - this._lastSeek) > 500] *)
Definition seekAllowed (st : SyncState) (now : Z) : bool :=
  negb (truthyZ (_lastSeek st)) ||
  match _lastSeek st with
  | Some l => (500 <? now - l)%Z
  | None => false
  end.

(** The three-tier MP3 tactic of the correction block. *)
Definition mp3Correction (a : Audio.t) (targetTime : Q) : list Effect :=
  let currentTime := Audio.currentTime a in
  let safePosition := findSafeSeekPosition a targetTime in
  let currentBufferedEnd := getCurrentBufferedEnd a in
  if Qltb currentTime safePosition then
    [SetCurrentTime SafeAdvance safePosition; EnsureMP3Playback]
  else if Qltb (currentTime + 0.5) currentBufferedEnd then
    let jumpTarget := Qmin (currentBufferedEnd - 0.2) targetTime in
    [SetCurrentTime BufferEdgeJump jumpTarget; EnsureMP3Playback]
  else
    let forceJump := Qmin (currentTime + 2) targetTime in
    if Qltb currentTime forceJump then
      [SetCurrentTime ForceJump forceJump; EnsureMP3Playback]
    else [].

(** What the correction block of [sync] issues once it runs: the MP3
    tactic, or the direct seek of HLS and other formats. *)
Definition correction (a : Audio.t) (targetTime : Q) : list Effect :=
  if Audio.src_includes_mp3 a then mp3Correction a targetTime
  else [SetCurrentTime DirectSeek targetTime].

(** The test of the seamless loop detection:
    [audio.duration && !_looping], then [timeToEnd <= 0.1 && timeToEnd > 0]. *)
Definition nearLoopEnd (a : Audio.t) : bool :=
  match Audio.duration a with
  | DurSeconds d =>
      negb (Qeq_bool d 0) &&
      let timeToEnd := d - Audio.currentTime a in
      Qle_bool timeToEnd 0.1 && Qltb 0 timeToEnd
  | DurInfinity => false
  | DurNaN => false
  end.

(** [_lastCurrentTime] after the first statement of the stuck detection:
    [if(!paused && !_lastCurrentTime) _lastCurrentTime = currentTime]. *)
Definition primedLastTime (st : SyncState) (a : Audio.t) : option Q :=
  if negb (Audio.paused a) && negb (truthy (_lastCurrentTime st))
  then Some (Audio.currentTime a)
  else _lastCurrentTime st.

(** [_lastCurrentTime === currentTime] *)
Definition strictEq (v : option Q) (q : Q) : bool :=
  match v with
  | Some p => Qeq_bool p q
  | None => false
  end.

(** The condition of the stuck branch. *)
Definition stuckNow (st : SyncState) (a : Audio.t) : bool :=
  Audio.src_includes_mp3 a && negb (Audio.paused a) &&
  strictEq (primedLastTime st a) (Audio.currentTime a) &&
  Qltb (Audio.currentTime a) 2.

(** [sync(force)].  [now0] is the clock read by [targetTime()], [now1] the
    one read inside the correction block. *)
Definition sync (c : Component) (force : bool) (st : SyncState) (a : Audio.t)
  (now0 now1 : Z) : SyncState * list Effect :=
  let currentTime := Audio.currentTime a in
  let target := targetTime c now0 in
  let drift := (currentTime - target) * 1000 in
  let last := primedLastTime st a in
  if stuckNow st a then
    let count :=
      (match _stuckCount st with Some n => n | None => 0 end + 1)%Z in
    if (10 <? count)%Z then
      (mkState last (Some 0%Z) (_looping st) (_lastSeek st),
       [RecoverFromStuck target])
    else
      (mkState last (Some count) (_looping st) (_lastSeek st), [])
  else
    if nearLoopEnd a && negb (_looping st) then
      (mkState (Some currentTime) (Some 0%Z) true (_lastSeek st),
       [SetCurrentTime LoopSeek target; SetTimeoutLoopingOff 200])
    else if force || driftExceeds c drift then
      if seekAllowed st now1 then
        (mkState (Some currentTime) (Some 0%Z) (_looping st) (Some now1),
         correction a target)
      else (mkState (Some currentTime) (Some 0%Z) (_looping st) (_lastSeek st), [])
    else (mkState (Some currentTime) (Some 0%Z) (_looping st) (_lastSeek st), []).

(** The callback that [recoverFromStuck] runs 100 ms after a successful
    reload: the position it seeks to, if any. *)
Definition recoverySeek (a : Audio.t) (targetTime : Q) : option Q :=
  let safePosition := findSafeSeekPosition a targetTime in
  if Qltb 0 safePosition then Some safePosition else None.

(** The position that [seek(offset)] writes:
    [Math.max(0, Math.min(audio.duration || 0, currentTime + offset))]. *)
Definition seekPosition (a : Audio.t) (offset : Q) : Q :=
  let moved := Audio.currentTime a + offset in
  match Audio.duration a with
  | DurSeconds d => Qmax 0 (Qmin d moved)
  | DurInfinity => Qmax 0 moved
  | DurNaN => Qmax 0 (Qmin 0 moved)
  end.

(** [seek(offset)]: the caller's own move of the position, then
    [sync(true)] when playing. *)
Definition seek (c : Component) (st : SyncState) (a : Audio.t) (offset : Q)
  (now0 now1 : Z) : SyncState * Audio.t * list Effect :=
  let a' := Audio.setCurrentTime a (seekPosition a offset) in
  if Audio.paused a' then (st, a', [])
  else let (st', effects) := sync c true st a' now0 now1 in (st', a', effects).

(** What drives the engine: the interval timer, the start of playback, a
    seek by the caller, and the timer that ends the loop transition.  Each
    carries the state of the audio element and the clock readings at that
    moment. *)
Inductive Event : Type :=
| Tick (a : Audio.t) (now0 now1 : Z)
| Play (a : Audio.t) (now0 now1 : Z)
| UserSeek (offset : Q) (a : Audio.t) (now0 now1 : Z)
| LoopTimer.

Definition step (c : Component) (st : SyncState) (ev : Event)
  : SyncState * list (Z * Effect) :=
  match ev with
  | Tick a now0 now1 =>
      let (st', effects) := sync c false st a now0 now1 in
      (st', map (pair now1) effects)
  | Play a now0 now1 =>
      let (st', effects) := sync c true st a now0 now1 in
      (st', map (pair now1) effects)
  | UserSeek offset a now0 now1 =>
      let '(st', _, effects) := seek c st a offset now0 now1 in
      (st', map (pair now1) effects)
  | LoopTimer =>
      (mkState (_lastCurrentTime st) (_stuckCount st) false (_lastSeek st), [])
  end.

(** A run of the engine: the final state and the log of effects, each with
    the clock reading of the call that issued it. *)
Fixpoint run (c : Component) (st : SyncState) (evs : list Event)
  : SyncState * list (Z * Effect) :=
  match evs with
  | [] => (st, [])
  | ev :: evs' =>
      let (st1, log1) := step c st ev in
      let (st2, log2) := run c st1 evs' in
      (st2, log1 ++ log2)
  end.

(** The clock reading of the correction block of an event. *)
Definition eventClock (ev : Event) : option Z :=
  match ev with
  | Tick _ _ now1 => Some now1
  | Play _ _ now1 => Some now1
  | UserSeek _ _ _ now1 => Some now1
  | LoopTimer => None
  end.

(** A seek issued by the drift-correction block. *)
Definition isCorrectionSeek (e : Effect) : bool :=
  match e with
  | SetCurrentTime LoopSeek _ => false
  | SetCurrentTime _ _ => true
  | _ => false
  end.

Definition isSeek (e : Effect) : bool :=
  match e with
  | SetCurrentTime _ _ => true
  | _ => false
  end.

(** ** Vocabulary of the statements, and concrete scenarios *)

(** A component with the default loop of 1800 s, no epoch offset, and a
    measured latency of 50 ms. *)
Definition scenario1 : Component :=
  {| duration := 1800; baseAllowed := 300; audioLatency := 0; lat := 0.05;
     isAndroid := false; isIOS := false; offset := 0;
     IOS_LAG := -1; AND_LAG := 0 |}.

(** A short buffered range ahead of the playhead. *)
Definition shortRangeAudio : Audio.t :=
  Audio.mk 10 false (DurSeconds 1800) [mkRange 15 15.2] true.

(** Progressive source at 10.0 with [[0,12]] and [[15,20]] buffered. *)
Definition scenario3 : Audio.t :=
  Audio.mk 10 false (DurSeconds 1800) [mkRange 0 12; mkRange 15 20] true.

(** Nothing buffered under the playhead, one range ahead of it. *)
Definition aheadOnlyAudio : Audio.t :=
  Audio.mk 10 false (DurSeconds 1800) [mkRange 15 20] true.

(** The specification's wording of [furthestContiguousEnd]: the end of
    the range holding the current position, else the current position. *)
Definition furthestContiguousEnd_spec (a : Audio.t) : Prop :=
  (forall r, In r (Audio.buffered a) -> contains (Audio.currentTime a) r ->
             getCurrentBufferedEnd a == rend r) /\
  (~ Exists (contains (Audio.currentTime a)) (Audio.buffered a) ->
   getCurrentBufferedEnd a == Audio.currentTime a).

(** [r] is the first range of [rs] that holds [p]. *)
Definition firstContaining (p : Q) (r : Range) (rs : list Range) : Prop :=
  exists before after,
    rs = before ++ r :: after /\
    Forall (fun r' => ~ contains p r') before /\
    contains p r.

(** A range that starts after [p]. *)
Definition startsAfter (p : Q) (r : Range) : Prop := p < rstart r.

(** A range at least as long as the half-second safety margin. *)
Definition roomy (r : Range) : Prop := rstart r + 0.5 <= rend r.

(** The component as [connectedCallback] leaves it on a desktop browser
    when no attribute is given. *)
Definition desktop : Component :=
  connectedCallback None None None None false false (-1) 0.

(** An adaptive-streaming source of 1800 s playing at position [p]. *)
Definition hlsAt (p : Q) : Audio.t :=
  Audio.mk p false (DurSeconds 1800) [] false.

(** A progressive source playing at position [p], nothing buffered, its
    metadata not yet loaded. *)
Definition mp3At (p : Q) : Audio.t :=
  Audio.mk p false DurNaN [] true.

(** [Math.abs(drift) > allowed] for the drift that [sync] computes. *)
Definition majorDrift (c : Component) (a : Audio.t) (now0 : Z) : Prop :=
  driftExceeds c ((Audio.currentTime a - targetTime c now0) * 1000) = true.

Definition seeksOf (effects : list Effect) : list Effect :=
  filter isSeek effects.

(** The clock readings of the drift-correction seeks of a log. *)
Definition correctionTimes (log : list (Z * Effect)) : list Z :=
  map fst (filter (fun te => isCorrectionSeek (snd te)) log).

(** The specification's wording of the seek rate limit: any two seeks of a
    run are more than 500 ms apart ... *)
Definition seeksSpaced_spec : Prop :=
  forall c evs log1 t1 e1 log2 t2 e2 log3,
    Forall (fun ev => eventClock ev <> Some 0%Z) evs ->
    snd (run c initialState evs) =
      log1 ++ (t1, e1) :: log2 ++ (t2, e2) :: log3 ->
    isSeek e1 = true -> isSeek e2 = true ->
    (t1 + 500 < t2)%Z.

(** ... and two ticks within 500 ms, both under major drift, issue at most
    one seek. *)
Definition twoTicks_spec : Prop :=
  forall c st a1 a2 t1 t2,
    (t1 <= t2 <= t1 + 500)%Z ->
    majorDrift c a1 t1 -> majorDrift c a2 t2 ->
    let (st1, effects1) := sync c false st a1 t1 t1 in
    let (_, effects2) := sync c false st1 a2 t2 t2 in
    (length (seeksOf (effects1 ++ effects2)) <= 1)%nat.

(** The specification's wording of the loop-boundary guard: the forced
    seek, the 200 ms window, and no seek by a call made within those
    200 ms on the state the guard left (the timer has not fired yet). *)
Definition loopGuard_spec : Prop :=
  forall c force st a now0 now1 d,
    Audio.duration a = DurSeconds d ->
    0 < d - Audio.currentTime a -> d - Audio.currentTime a <= 0.1 ->
    let (st1, effects) := sync c force st a now0 now1 in
    (exists kind, In (SetCurrentTime kind (targetTime c now0)) effects) /\
    In (SetTimeoutLoopingOff 200) effects /\
    _looping st1 = true /\
    forall force2 a2 n0 n1,
      (now1 <= n1 < now1 + 200)%Z ->
      seeksOf (snd (sync c force2 st1 a2 n0 n1)) = [].

(** The specification's wording of the explicit seek: while playing, it
    always brings a correction, whatever the time of the last one. *)
Definition explicitSeek_spec : Prop :=
  forall c st offset a now0 now1,
    Audio.paused a = false ->
    seeksOf (map snd (snd (step c st (UserSeek offset a now0 now1)))) <> [].

(** [t2] comes more than 500 ms after [t1]. *)
Definition gap (t1 t2 : Z) : Prop := (t1 + 500 < t2)%Z.

(** Playback starts, and the drift is still there 600 ms later. *)
Definition twoCorrections : list Event :=
  [Play (hlsAt 900) 1000000 1000000; Tick (hlsAt 900) 1000600 1000600].

(** The state an explicit seek finds 200 ms after playback started. *)
Definition justCorrected : SyncState :=
  fst (run desktop initialState [Play (hlsAt 900) 1000000 1000000]).

(** The stuck counter as [sync] reads it. *)
Definition stuckCount (st : SyncState) : Z :=
  match _stuckCount st with Some n => n | None => 0%Z end.

(** The last observed position is unset, zero, or the position [p]. *)
Definition lastIs (st : SyncState) (p : Q) : Prop :=
  truthy (_lastCurrentTime st) = false \/ strictEq (_lastCurrentTime st) p = true.

(** A progressive source, playing, reporting position [p]. *)
Definition stalledAt (p : Q) (a : Audio.t) : Prop :=
  Audio.src_includes_mp3 a = true /\ Audio.paused a = false /\
  Audio.currentTime a == p.

(** An interval tick that finds a progressive source stalled at [p]. *)
Definition stalledTick (p : Q) (ev : Event) : Prop :=
  match ev with
  | Tick a _ _ => stalledAt p a
  | _ => False
  end.

(** Ten interval ticks with the progressive source stalled at zero. *)
Definition tenTicksAtZero : list Event :=
  repeat (Tick (mp3At 0) 1000000 1000000) 10.

(** A source with its metadata loaded, paused at 1795 of 1800 s. *)
Definition pausedNearEnd : Audio.t :=
  Audio.mk 1795 true (DurSeconds 1800) [] false.

(** A seek issued by the seamless loop detection. *)
Definition isLoopSeek (e : Effect) : bool :=
  match e with
  | SetCurrentTime LoopSeek _ => true
  | _ => false
  end.

(** The loop seeks of a log. *)
Definition loopSeeksOf (log : list (Z * Effect)) : list (Z * Effect) :=
  filter (fun te => isLoopSeek (snd te)) log.

(** An event other than the callback of the loop timer. *)
Definition notLoopTimer (ev : Event) : Prop :=
  match ev with
  | LoopTimer => False
  | _ => True
  end.

(** Two ticks 16 ms apart near the end of the media, the loop timer not
    yet fired. *)
Definition twoTicksNearEnd : list Event :=
  [Tick (hlsAt 1799.95) 1000000 1000000; Tick (hlsAt 1799.97) 1000016 1000016].

(** ** The progress bar *)

(** [updateProgress]: the width, in percent, written to the progress bar;
    [None] when the function returns before writing (no bar, or
    [!audio.duration]).  Against an infinite duration the quotient is 0. *)
Definition updateProgress (hasProgressFill : bool) (a : Audio.t) : option Q :=
  if negb hasProgressFill then None
  else
    match Audio.duration a with
    | DurNaN => None
    | DurInfinity => Some (Qmin 100 (Qmax 0 (0 * 100)))
    | DurSeconds d =>
        if Qeq_bool d 0 then None
        else Some (Qmin 100 (Qmax 0 (Audio.currentTime a / d * 100)))
    end.

(** The fields behind the animation loop of the progress bar. *)
Record ProgressState : Type := mkProgress {
  _progressAnimationActive : bool;
  _lastProgressUpdate : option Q
}.

Definition initialProgress : ProgressState := mkProgress false None.

(** [!_lastProgressUpdate || now - _lastProgressUpdate >= 100] *)
Definition progressDue (ps : ProgressState) (now : Q) : bool :=
  negb (truthy (_lastProgressUpdate ps)) ||
  match _lastProgressUpdate ps with
  | Some l => Qle_bool 100 (now - l)
  | None => false
  end.

(** [animateProgress()], [now] being the reading of [performance.now()]:
    the new state, whether [updateProgress()] was called, and whether the
    next animation frame was requested. *)
Definition animateProgress (ps : ProgressState) (now : Q)
  : ProgressState * bool * bool :=
  if negb (_progressAnimationActive ps) then (ps, false, false)
  else if progressDue ps now
       then (mkProgress (_progressAnimationActive ps) (Some now), true, true)
       else (ps, false, true).

(** [stopProgressUpdates()] *)
Definition stopProgressUpdates (ps : ProgressState) : ProgressState :=
  mkProgress false (_lastProgressUpdate ps).

(** [startProgressUpdates()]: stop, activate, and run the first frame. *)
Definition startProgressUpdates (ps : ProgressState) (now : Q)
  : ProgressState * bool * bool :=
  animateProgress (mkProgress true (_lastProgressUpdate (stopProgressUpdates ps)))
                  now.

(** What drives the progress bar: the start and the stop of the updates
    and the animation frames of the browser. *)
Inductive ProgressEvent : Type :=
| StartProgress (now : Q)
| Frame (now : Q)
| StopProgress.

Definition progressClock (ev : ProgressEvent) : option Q :=
  match ev with
  | StartProgress now => Some now
  | Frame now => Some now
  | StopProgress => None
  end.

(** One event: the new state and the time of the update, if one was made. *)
Definition progressStep (ps : ProgressState) (ev : ProgressEvent)
  : ProgressState * list Q :=
  match ev with
  | StartProgress now =>
      let '(ps', updated, _) := startProgressUpdates ps now in
      (ps', if updated then [now] else [])
  | Frame now =>
      let '(ps', updated, _) := animateProgress ps now in
      (ps', if updated then [now] else [])
  | StopProgress => (stopProgressUpdates ps, [])
  end.

Fixpoint progressRun (ps : ProgressState) (evs : list ProgressEvent)
  : ProgressState * list Q :=
  match evs with
  | [] => (ps, [])
  | ev :: evs' =>
      let (ps1, ts1) := progressStep ps ev in
      let (ps2, ts2) := progressRun ps1 evs' in
      (ps2, ts1 ++ ts2)
  end.

(** [t2] comes at least 100 ms after [t1]. *)
Definition throttled (t1 t2 : Q) : Prop := t1 + 100 <= t2.

(** Frames at the pace of a 60 Hz display. *)
Definition sixtyHertz : list ProgressEvent :=
  [StartProgress 5000; Frame 5016; Frame 5033; Frame 5100; Frame 5116].

(** ** The debug overlay *)

(** The sync status row of [paint]. *)
Inductive SyncStatus : Type := InSync | MinorDrift | OutOfSync.

Definition syncStatus (c : Component) (drift : Q) : SyncStatus :=
  if Qle_bool (Qabs drift) (allowed c) then InSync
  else if Qle_bool (Qabs drift) (allowed c * 2) then MinorDrift
  else OutOfSync.

Definition severity (s : SyncStatus) : nat :=
  match s with
  | InSync => 0
  | MinorDrift => 1
  | OutOfSync => 2
  end.

(** The loop status row of [paint]:
    [timeToEnd = audio.duration ? audio.duration - cur : 0]. *)
Inductive LoopStatus : Type := Looping | NearEnd | Playing.

Definition loopStatusOf (timeToEnd : Q) : LoopStatus :=
  if Qle_bool timeToEnd 0.1 then Looping
  else if Qle_bool timeToEnd 1 then NearEnd
  else Playing.

Definition loopStatus (a : Audio.t) : LoopStatus :=
  match Audio.duration a with
  | DurNaN => loopStatusOf 0
  | DurInfinity => Playing
  | DurSeconds d =>
      loopStatusOf (if Qeq_bool d 0 then 0 else d - Audio.currentTime a)
  end.

(** A source just reloaded: position 0, only [[0, 30]] buffered. *)
Definition reloaded : Audio.t :=
  Audio.mk 0 false (DurSeconds 1800) [mkRange 0 30] true.

(** ** Latency settings *)

(** [measureLatency()] once the audio context is there and running:
    [lat = (baseLatency || 0) + (outputLatency || 0)]. *)
Definition measureLatency (c : Component) (baseLatency outputLatency : option Q)
  : Component :=
  mkComponent (duration c) (baseAllowed c) (audioLatency c)
    (num_or baseLatency 0 + num_or outputLatency 0)
    (isAndroid c) (isIOS c) (offset c) (IOS_LAG c) (AND_LAG c).

(** [attributeChangedCallback('audio-latency', _, newValue)]:
    [audioLatency = +newValue || 0]. *)
Definition attributeChangedCallback (c : Component) (newValue : option Q)
  : Component :=
  mkComponent (duration c) (baseAllowed c) (num_or newValue 0) (lat c)
    (isAndroid c) (isIOS c) (offset c) (IOS_LAG c) (AND_LAG c).

(** * Results *)

(** ** Properties of the remainder *)

Section Remainder.

#[global] Instance Qtrunc_comp : Proper (Qeq ==> eq) Qtrunc.
  Proof.
    intros x y Hxy. unfold Qtrunc. rewrite Hxy.
    destruct (Qle_bool 0 y); now rewrite Hxy.
  Qed.

#[global] Instance fmod_comp : Proper (Qeq ==> Qeq ==> Qeq) fmod.
  Proof.
    intros x x' Hx y y' Hy. unfold fmod.
    assert (Qtrunc (x / y) = Qtrunc (x' / y')) as ->
      by (apply Qtrunc_comp; rewrite Hx, Hy; reflexivity).
    rewrite Hx, Hy. reflexivity.
  Qed.

#[global] Instance normalize_comp :
    Proper (Qeq ==> Qeq ==> Qeq) ClockSpec.normalize.
  Proof.
    intros L L' HL x x' Hx. unfold ClockSpec.normalize. now rewrite HL, Hx.
  Qed.

  (** Truncation is within one unit of its argument, on the side of zero. *)
Lemma Qtrunc_nonneg (q : Q) :
    0 <= q -> inject_Z (Qtrunc q) <= q /\ q < inject_Z (Qtrunc q) + 1.
  Proof.
    intros Hq. unfold Qtrunc.
    destruct (Qle_bool 0 q) eqn:E.
    - split.
      + apply Qfloor_le.
      + pose proof (Qlt_floor q) as H. rewrite inject_Z_plus in H. exact H.
    - apply Qle_bool_iff in Hq. congruence.
  Qed.

Lemma Qtrunc_neg (q : Q) :
    q < 0 -> inject_Z (Qtrunc q) - 1 < q /\ q <= inject_Z (Qtrunc q).
  Proof.
    intros Hq. unfold Qtrunc.
    destruct (Qle_bool 0 q) eqn:E.
    - apply Qle_bool_iff in E. lra.
    - split.
      + pose proof (Qceiling_lt q) as H.
        unfold Z.sub in H. rewrite inject_Z_plus in H. exact H.
      + apply Qle_ceiling.
  Qed.

Lemma inject_Z_pred (k : Z) : inject_Z (k - 1) == inject_Z k - 1.
  Proof.
    unfold Z.sub. rewrite inject_Z_plus. reflexivity.
  Qed.

Variable L : Q.
Hypothesis Lpos : 0 < L.

Lemma div_mul_cancel (x : Q) : x == L * (x / L).
  Proof. field. lra. Qed.

Lemma div_nonneg (x : Q) : 0 <= x -> 0 <= x / L.
  Proof.
    intros Hx. unfold Qdiv. apply Qmult_le_0_compat; [exact Hx|].
    apply Qlt_le_weak, Qinv_lt_0_compat, Lpos.
  Qed.

Lemma div_neg (x : Q) : x < 0 -> x / L < 0.
  Proof.
    intros Hx.
    assert (0 < (- x) / L) as H.
    { unfold Qdiv. apply Qmult_lt_0_compat; [lra|].
      apply Qinv_lt_0_compat, Lpos. }
    assert ((- x) / L == - (x / L)) as E by (field; lra).
    rewrite E in H. lra.
  Qed.

  (** A non-negative dividend leaves a remainder in [[0, L)]. *)
Lemma fmod_nonneg (x : Q) : 0 <= x -> 0 <= fmod x L /\ fmod x L < L.
  Proof.
    intros Hx. unfold fmod.
    destruct (Qtrunc_nonneg (x / L) (div_nonneg x Hx)) as [Hlo Hhi].
    pose proof (div_mul_cancel x) as E.
    set (k := inject_Z (Qtrunc (x / L))) in *.
    set (q := x / L) in *.
    assert (L * k <= L * q) by (apply Qmult_le_l; assumption).
    assert (L * q < L * (k + 1)) by (apply Qmult_lt_l; assumption).
    split; lra.
  Qed.

  (** A negative dividend leaves a remainder in [(-L, 0]]. *)
Lemma fmod_neg (x : Q) : x < 0 -> - L < fmod x L /\ fmod x L <= 0.
  Proof.
    intros Hx. unfold fmod.
    destruct (Qtrunc_neg (x / L) (div_neg x Hx)) as [Hlo Hhi].
    pose proof (div_mul_cancel x) as E.
    set (k := inject_Z (Qtrunc (x / L))) in *.
    set (q := x / L) in *.
    assert (L * q <= L * k) by (apply Qmult_le_l; assumption).
    assert (L * (k - 1) < L * q) by (apply Qmult_lt_l; assumption).
    split; lra.
  Qed.

Lemma fmod_bounds (x : Q) : - L < fmod x L /\ fmod x L < L.
  Proof.
    destruct (Qlt_le_dec x 0) as [Hx|Hx].
    - destruct (fmod_neg x Hx). split; lra.
    - destruct (fmod_nonneg x Hx). split; lra.
  Qed.

  (** The remainder differs from the dividend by a whole number of loops. *)
Lemma fmod_loops (x : Q) : exists k : Z, fmod x L == x - L * inject_Z k.
  Proof. exists (Qtrunc (x / L)). reflexivity. Qed.

Lemma normalize_range (x : Q) :
    0 <= ClockSpec.normalize L x /\ ClockSpec.normalize L x < L.
  Proof.
    unfold ClockSpec.normalize. apply fmod_nonneg.
    destruct (fmod_bounds x). lra.
  Qed.

Lemma normalize_loops (x : Q) :
    exists k : Z, ClockSpec.normalize L x == x - L * inject_Z k.
  Proof.
    unfold ClockSpec.normalize.
    destruct (fmod_loops x) as [k1 E1].
    destruct (fmod_loops (fmod x L + L)) as [k2 E2].
    exists (k1 + k2 - 1)%Z. rewrite E2, E1.
    rewrite inject_Z_pred, inject_Z_plus. ring.
  Qed.

  (** Two representatives in [[0, L)] of the same class modulo [L] agree. *)
Lemma loops_unique (x : Q) (a b : Z) :
    0 <= x - L * inject_Z a < L ->
    0 <= x - L * inject_Z b < L ->
    a = b.
  Proof.
    intros [Ha1 Ha2] [Hb1 Hb2].
    assert (forall k, L * (inject_Z k + 1) == L * inject_Z k + L) as E
      by (intros k; ring).
    assert (L * inject_Z a < L * (inject_Z b + 1)) as H1
      by (rewrite E; lra).
    assert (L * inject_Z b < L * (inject_Z a + 1)) as H2
      by (rewrite E; lra).
    apply Qmult_lt_l in H1; [|exact Lpos].
    apply Qmult_lt_l in H2; [|exact Lpos].
    change 1 with (inject_Z 1) in H1, H2.
    rewrite <- inject_Z_plus, <- Zlt_Qlt in H1, H2. lia.
  Qed.

Lemma normalize_shift (x : Q) :
    ClockSpec.normalize L x == ClockSpec.normalize L (x + L).
  Proof.
    destruct (normalize_loops x) as [a Ea].
    destruct (normalize_loops (x + L)) as [b Eb].
    pose proof (normalize_range x) as Ra.
    pose proof (normalize_range (x + L)) as Rb.
    rewrite Ea in Ra. rewrite Eb in Rb.
    assert (a = (b - 1)%Z) as ->.
    { apply (loops_unique x); [exact Ra|].
      rewrite inject_Z_pred. lra. }
    rewrite Ea, Eb, inject_Z_pred. ring.
  Qed.

End Remainder.

(** [connectedCallback] never leaves a zero loop duration, so the divisor
    of [%] in [utc] and [targetTime] is non-zero. *)
Lemma connectedCallback_duration_nonzero
  (attr_duration attr_allowed attr_latency attr_offset : option Q)
  (android ios : bool) (ios_lag and_lag : Q) :
  ~ duration (connectedCallback attr_duration attr_allowed attr_latency
                attr_offset android ios ios_lag and_lag) == 0.
Proof.
  simpl. unfold num_or.
  destruct attr_duration as [q|]; [|discriminate].
  destruct (Qeq_bool q 0) eqn:E; [discriminate|].
  intros H. apply Qeq_bool_iff in H. congruence.
Qed.

(** The code's [targetTime] is the specification's formula: the three
    compensation terms are summed in another order. *)
Lemma targetTime_refines (c : Component) (now : Z) :
  targetTime c now == ClockSpec.targetPosition c now.
Proof.
  unfold targetTime, ClockSpec.targetPosition, ClockSpec.normalize,
    ClockSpec.totalCompensation.
  assert (seconds now + offset c + (lat c + lag c + audioLatency c / 1000) ==
          seconds now + offset c + (lat c + audioLatency c / 1000 + lag c)) as E
    by ring.
  now rewrite E.
Qed.

Lemma utc_is_normalize (c : Component) (now : Z) :
  utc c now = ClockSpec.normalize (duration c) (seconds now + offset c).
Proof. reflexivity. Qed.

(** ** The clock model: results *)

(** C1.  For every configuration, latency state and clock reading, the
    target position is [normalize (wall-clock seconds + epoch offset +
    total compensation)], the total compensation being measured latency +
    user-supplied latency / 1000 + platform seek lag; and whenever the loop
    lasts 1800 s, the epoch offset is 0, the wall clock reads 905.200 s and
    the total compensation is 0.05 s, the target position is 905.250. *)
Theorem targetTime_is_normalized_clock :
  (forall (c : Component) (now : Z),
      targetTime c now ==
      ClockSpec.normalize (duration c)
        (seconds now + offset c + ClockSpec.totalCompensation c)) /\
  (forall (c : Component) (now : Z),
      duration c == 1800 -> offset c == 0 -> seconds now == 905.2 ->
      ClockSpec.totalCompensation c == 0.05 ->
      targetTime c now == 905.25).
Proof.
  split.
  - intros c now. apply targetTime_refines.
  - intros c now HL Ho Hs Hc.
    rewrite targetTime_refines. unfold ClockSpec.targetPosition.
    rewrite HL, Ho, Hs, Hc. reflexivity.
Qed.

Lemma targetTime_is_normalized_clock_witness :
  targetTime scenario1 905200%Z == 905.25.
Proof.
  apply (proj2 targetTime_is_normalized_clock scenario1 905200%Z);
    reflexivity.
Defined.

(** C2.  For a loop duration [L > 0] and every [x], negative ones
    included, [normalize x] lies in [[0, L)] and is unchanged by adding
    [L] to [x]; hence the target position (and the uncompensated [utc]
    position) of a component whose loop lasts [L] lies in [[0, L)]. *)
Theorem normalize_in_loop (L : Q) (HL : 0 < L) :
  (forall x : Q,
      (0 <= ClockSpec.normalize L x /\ ClockSpec.normalize L x < L) /\
      ClockSpec.normalize L x == ClockSpec.normalize L (x + L)) /\
  (forall (c : Component) (now : Z),
      duration c == L ->
      (0 <= targetTime c now /\ targetTime c now < L) /\
      (0 <= utc c now /\ utc c now < L)).
Proof.
  split.
  - intros x. split.
    + apply normalize_range, HL.
    + apply normalize_shift, HL.
  - intros c now Hd. split.
    + rewrite targetTime_refines. unfold ClockSpec.targetPosition.
      rewrite Hd. apply normalize_range, HL.
    + rewrite utc_is_normalize, Hd. apply normalize_range, HL.
Qed.

Lemma normalize_in_loop_witness :
  0 < 1800 /\
  (0 <= ClockSpec.normalize 1800 (-1) /\ ClockSpec.normalize 1800 (-1) < 1800) /\
  ClockSpec.normalize 1800 (-1) == ClockSpec.normalize 1800 (-1 + 1800) /\
  (0 <= targetTime scenario1 905200%Z /\ targetTime scenario1 905200%Z < 1800).
Proof.
  assert (0 < 1800) as H by reflexivity.
  split; [exact H|].
  destruct (normalize_in_loop 1800 H) as [Hn Ht].
  destruct (Hn (-1)) as [Hr Hs].
  split; [exact Hr|]. split; [exact Hs|].
  apply (Ht scenario1 905200%Z). reflexivity.
Defined.

(** ** Buffered ranges: results *)

Lemma Qltb_iff (x y : Q) : Qltb x y = true <-> x < y.
Proof.
  unfold Qltb. rewrite negb_true_iff. split.
  - intros H. apply Qnot_le_lt. intros Hle.
    apply Qle_bool_iff in Hle. congruence.
  - intros H. destruct (Qle_bool y x) eqn:E; [|reflexivity].
    apply Qle_bool_iff in E. lra.
Qed.

Lemma Qltb_false_iff (x y : Q) : Qltb x y = false <-> y <= x.
Proof.
  unfold Qltb. rewrite negb_false_iff. apply Qle_bool_iff.
Qed.

Lemma inRange_iff (r : Range) (p : Q) : inRange r p = true <-> contains p r.
Proof.
  unfold inRange, contains. rewrite andb_true_iff, !Qle_bool_iff. tauto.
Qed.

Lemma inRange_false_iff (r : Range) (p : Q) :
  inRange r p = false <-> ~ contains p r.
Proof.
  rewrite <- inRange_iff. destruct (inRange r p); split; congruence.
Qed.

(** [Math.min] and [Math.max] hand back one of their arguments. *)
Lemma Qmin_cases (x y : Q) :
  (Qmin x y = x /\ x <= y) \/ (Qmin x y = y /\ y < x).
Proof.
  unfold Qmin, GenericMinMax.gmin.
  destruct (x ?= y) eqn:E.
  - left. split; [reflexivity|]. apply Qeq_alt in E. lra.
  - left. split; [reflexivity|]. apply Qlt_alt in E. lra.
  - right. split; [reflexivity|]. apply Qgt_alt in E. exact E.
Qed.

Lemma Qmax_cases (x y : Q) :
  (Qmax x y = x /\ y <= x) \/ (Qmax x y = y /\ x < y).
Proof.
  unfold Qmax, GenericMinMax.gmax.
  destruct (x ?= y) eqn:E.
  - left. split; [reflexivity|]. apply Qeq_alt in E. lra.
  - right. split; [reflexivity|]. apply Qlt_alt in E. exact E.
  - left. split; [reflexivity|]. apply Qgt_alt in E. lra.
Qed.

Lemma findSafeSeekPosition_loop (a : Audio.t) (target : Q) :
  findSafeSeekPosition a target =
  safeSeekLoop target (Audio.currentTime a) (Audio.buffered a).
Proof.
  unfold findSafeSeekPosition. destruct (Audio.buffered a); reflexivity.
Qed.

Lemma getCurrentBufferedEnd_loop (a : Audio.t) :
  getCurrentBufferedEnd a =
  bufferedEndLoop (Audio.currentTime a) (Audio.currentTime a) (Audio.buffered a).
Proof.
  unfold getCurrentBufferedEnd. destruct (Audio.buffered a); reflexivity.
Qed.

Lemma isPositionBuffered_loop (a : Audio.t) (p : Q) :
  isPositionBuffered a p = isBufferedLoop p (Audio.buffered a).
Proof.
  unfold isPositionBuffered. destruct (Audio.buffered a); reflexivity.
Qed.

Lemma isBufferedLoop_iff (p : Q) (rs : list Range) :
  isBufferedLoop p rs = true <-> Exists (contains p) rs.
Proof.
  induction rs as [|r rs IH]; simpl.
  - split; [discriminate|]. intros H. inversion H.
  - destruct (inRange r p) eqn:E.
    + split; [|reflexivity]. intros _. left. now apply inRange_iff.
    + rewrite IH. split.
      * intros H. now right.
      * intros H. inversion H as [? ? Hc|]; subst; [|assumption].
        apply inRange_iff in Hc. congruence.
Qed.

Lemma ordered_wellFormed (rs : list Range) :
  ordered rs -> Forall wellFormed rs.
Proof.
  induction 1; constructor; assumption.
Qed.

Section SafeSeek.

Variable target : Q.

  (** A range holding the target ends the loop with the target itself. *)
Lemma safeSeekLoop_contains (rs : list Range) (s : Q) :
    Exists (contains target) rs -> safeSeekLoop target s rs = target.
  Proof.
    revert s. induction rs as [|r rs IH]; intros s H.
    - inversion H.
    - simpl. destruct (inRange r target) eqn:E; [reflexivity|].
      assert (Exists (contains target) rs) as H'.
      { inversion H as [? ? Hc|]; subst; [|assumption].
        apply inRange_iff in Hc. congruence. }
      destruct (_ && _); apply IH, H'.
  Qed.

  (** Once every remaining range starts beyond the running position, the
      loop ends on the last range that starts at or before the target. *)
Lemma safeSeekLoop_beyond (rs : list Range) :
    forall s : Q,
      ordered rs ->
      Forall (fun r => ~ contains target r) rs ->
      Forall (fun r => s < rstart r) rs ->
      (Forall (fun r => target < rstart r) rs /\ safeSeekLoop target s rs = s) \/
      (exists r, In r rs /\ rstart r <= target /\
         (forall r', In r' rs -> rstart r' <= target ->
                     rstart r' <= rstart r /\ rend r' <= rend r) /\
         safeSeekLoop target s rs = Qmin (rend r - 0.5) target).
  Proof.
    induction rs as [|r rs' IH]; intros s Hord Hnc Hs.
    - left. split; [constructor|reflexivity].
    - inversion Hord as [|? ? Hwf Hsep Hord']; subst.
      inversion Hnc as [|? ? Hr Hnc']; subst.
      inversion Hs as [|? ? Hsr Hs']; subst.
      simpl. apply inRange_false_iff in Hr. rewrite Hr.
      apply Qltb_iff in Hsr. rewrite Hsr. simpl.
      unfold wellFormed in Hwf.
      destruct (Qle_bool (rstart r) target) eqn:Et.
      + apply Qle_bool_iff in Et.
        assert (Forall (fun r' => Qmin (rend r - 0.5) target < rstart r') rs')
          as Hs2.
        { rewrite Forall_forall in Hsep |- *. intros r' Hin.
          specialize (Hsep r' Hin).
          destruct (Qmin_cases (rend r - 0.5) target) as [[-> _]|[-> ?]]; lra. }
        right.
        destruct (IH _ Hord' Hnc' Hs2) as [[Hall ->]|(r1 & Hin & Ht & Hmax & ->)].
        * exists r. split; [now left|]. split; [exact Et|].
          split; [|reflexivity].
          intros r' [<-|Hin] Hr'; [split; lra|].
          rewrite Forall_forall in Hall. specialize (Hall r' Hin). lra.
        * exists r1. split; [now right|]. split; [exact Ht|].
          split; [|reflexivity].
          intros r' [<-|Hin'] Hr'; [|now apply Hmax].
          rewrite Forall_forall in Hsep. specialize (Hsep r1 Hin).
          apply ordered_wellFormed in Hord'.
          rewrite Forall_forall in Hord'. specialize (Hord' r1 Hin).
          unfold wellFormed in Hord'. split; lra.
      + assert (target < rstart r) as Hlt.
        { apply Qnot_le_lt. intros Hle. apply Qle_bool_iff in Hle. congruence. }
        destruct (IH _ Hord' Hnc' Hs') as [[Hall ->]|(r1 & Hin & Ht & Hmax & ->)].
        * left. split; [now constructor|reflexivity].
        * right. exists r1. split; [now right|]. split; [exact Ht|].
          split; [|reflexivity].
          intros r' [<-|Hin'] Hr'; [lra|now apply Hmax].
  Qed.

Variable cur : Q.

  (** The whole loop, started at the current position, over ranges none of
      which holds the target. *)
Lemma safeSeekLoop_from_current (rs : list Range) :
    ordered rs ->
    Forall (fun r => ~ contains target r) rs ->
    (Forall (fun r => ~ qualifies cur target r) rs /\
     safeSeekLoop target cur rs = cur) \/
    (exists r, In r rs /\ qualifies cur target r /\
       (forall r', In r' rs -> qualifies cur target r' ->
                   rstart r' <= rstart r /\ rend r' <= rend r) /\
       safeSeekLoop target cur rs = Qmin (rend r - 0.5) target).
  Proof.
    induction rs as [|r rs' IH]; intros Hord Hnc.
    - left. split; [constructor|reflexivity].
    - inversion Hord as [|? ? Hwf Hsep Hord']; subst.
      inversion Hnc as [|? ? Hr Hnc']; subst.
      simpl. apply inRange_false_iff in Hr. rewrite Hr.
      unfold wellFormed in Hwf.
      destruct (Qltb cur (rstart r) && Qle_bool (rstart r) target) eqn:Eq.
      + apply andb_true_iff in Eq. destruct Eq as [Hc Ht].
        apply Qltb_iff in Hc. apply Qle_bool_iff in Ht.
        assert (Forall (fun r' => Qmin (rend r - 0.5) target < rstart r') rs')
          as Hs2.
        { rewrite Forall_forall in Hsep |- *. intros r' Hin.
          specialize (Hsep r' Hin).
          destruct (Qmin_cases (rend r - 0.5) target) as [[-> _]|[-> ?]]; lra. }
        right.
        destruct (safeSeekLoop_beyond rs' _ Hord' Hnc' Hs2)
          as [[Hall ->]|(r1 & Hin & Ht1 & Hmax & ->)].
        * exists r. split; [now left|]. split; [now split|].
          split; [|reflexivity].
          intros r' [<-|Hin] [_ Hr']; [split; lra|].
          rewrite Forall_forall in Hall. specialize (Hall r' Hin). lra.
        * rewrite Forall_forall in Hsep. pose proof (Hsep r1 Hin) as Hr1.
          apply ordered_wellFormed in Hord'.
          rewrite Forall_forall in Hord'. specialize (Hord' r1 Hin).
          unfold wellFormed in Hord'.
          exists r1. split; [now right|]. split; [split; lra|].
          split; [|reflexivity].
          intros r' [<-|Hin'] [_ Hr']; [split; lra|now apply Hmax].
      + assert (~ qualifies cur target r) as Hnq.
        { intros [Hc Ht]. apply Qltb_iff in Hc. apply Qle_bool_iff in Ht.
          rewrite Hc, Ht in Eq. discriminate. }
        destruct (IH Hord' Hnc') as [[Hall ->]|(r1 & Hin & Hq & Hmax & ->)].
        * left. split; [now constructor|reflexivity].
        * right. exists r1. split; [now right|]. split; [exact Hq|].
          split; [|reflexivity].
          intros r' [<-|Hin'] Hr'; [contradiction|now apply Hmax].
  Qed.

End SafeSeek.

(** C4.  For ordered, non-overlapping buffered ranges: if some range holds
    the target (ends included), [findSafeSeekPosition] returns the target
    itself; otherwise, if the start of some range lies between the current
    position and the target, it returns [min (end - 0.5) target] for the
    qualifying range reaching furthest toward the target; otherwise it
    returns the current position.  With the playhead at 10.0, ranges
    [[0,12]] and [[15,20]] and target 18.0 it returns 18.0. *)
Theorem findSafeSeekPosition_cases :
  (forall (a : Audio.t) (target : Q),
      ordered (Audio.buffered a) ->
      let cur := Audio.currentTime a in
      let rs := Audio.buffered a in
      (Exists (contains target) rs -> findSafeSeekPosition a target = target) /\
      (~ Exists (contains target) rs -> Exists (qualifies cur target) rs ->
       exists r, In r rs /\ qualifies cur target r /\
         (forall r', In r' rs -> qualifies cur target r' ->
                     rstart r' <= rstart r /\ rend r' <= rend r) /\
         findSafeSeekPosition a target = Qmin (rend r - 0.5) target) /\
      (~ Exists (contains target) rs -> ~ Exists (qualifies cur target) rs ->
       findSafeSeekPosition a target = cur)) /\
  findSafeSeekPosition scenario3 18 = 18.
Proof.
  split; [|reflexivity].
  intros a target Hord cur rs.
  rewrite findSafeSeekPosition_loop. fold cur rs.
  split; [apply safeSeekLoop_contains|].
  assert (~ Exists (contains target) rs ->
          Forall (fun r => ~ contains target r) rs) as Hnc
    by (intros H; now apply Forall_Exists_neg).
  split; intros Hno Hq.
  - destruct (safeSeekLoop_from_current target cur rs Hord (Hnc Hno))
      as [[Hall _]|H]; [|exact H].
    apply Forall_Exists_neg in Hall. contradiction.
  - destruct (safeSeekLoop_from_current target cur rs Hord (Hnc Hno))
      as [[_ H]|(r & Hin & Hqr & _)]; [exact H|].
    exfalso. apply Hq. apply Exists_exists. now exists r.
Qed.

Lemma scenario3_ordered : ordered (Audio.buffered scenario3).
Proof.
  unfold scenario3. simpl.
  repeat constructor; unfold wellFormed; simpl; lra.
Defined.

Lemma findSafeSeekPosition_cases_witness :
  ordered (Audio.buffered scenario3) /\
  findSafeSeekPosition scenario3 18 = 18.
Proof.
  split; [exact scenario3_ordered|].
  apply (proj1 findSafeSeekPosition_cases scenario3 18 scenario3_ordered).
  apply Exists_cons_tl, Exists_cons_hd. split; simpl; lra.
Defined.

(** C3.  With the playhead at 10.0, the single buffered range
    [[15, 15.2]] and target 18.0, the range qualifies (it starts between
    the playhead and the target), yet [findSafeSeekPosition] returns 14.7,
    half a second before the end of a range only 0.2 s long, and
    [isPositionBuffered] rejects that position. *)
Theorem findSafeSeekPosition_short_range :
  Exists (qualifies (Audio.currentTime shortRangeAudio) 18)
         (Audio.buffered shortRangeAudio) /\
  findSafeSeekPosition shortRangeAudio 18 == 14.7 /\
  isPositionBuffered shortRangeAudio
    (findSafeSeekPosition shortRangeAudio 18) = false.
Proof.
  split; [|split; reflexivity].
  apply Exists_cons_hd. split; simpl; lra.
Qed.

Section SafeSeekBuffered.

Variable target : Q.

Lemma safeSeekLoop_keeps_buffered (rs done : list Range) :
    forall s : Q,
      Forall roomy rs ->
      Exists (contains s) done ->
      Exists (contains (safeSeekLoop target s rs)) (done ++ rs).
  Proof.
    revert done. induction rs as [|r rs' IH]; intros done s Hroomy Hs.
    - simpl. rewrite app_nil_r. exact Hs.
    - inversion Hroomy as [|? ? Hr Hroomy']; subst. simpl.
      destruct (inRange r target) eqn:Ec.
      + apply Exists_app. right. left. now apply inRange_iff.
      + replace (done ++ r :: rs') with ((done ++ [r]) ++ rs')
          by (rewrite <- app_assoc; reflexivity).
        destruct (Qltb s (rstart r) && Qle_bool (rstart r) target) eqn:Eq.
        * apply IH; [exact Hroomy'|].
          apply Exists_app. right. left.
          apply andb_true_iff in Eq. destruct Eq as [_ Ht].
          apply Qle_bool_iff in Ht. unfold roomy in Hr. unfold contains.
          destruct (Qmin_cases (rend r - 0.5) target) as [[-> ?]|[-> ?]];
            split; lra.
        * apply IH; [exact Hroomy'|].
          apply Exists_app. now left.
  Qed.

Lemma safeSeekLoop_reaches_buffered (rs done : list Range) (cur : Q) :
    Forall roomy rs ->
    Exists (qualifies cur target) rs ->
    Exists (contains (safeSeekLoop target cur rs)) (done ++ rs).
  Proof.
    revert done. induction rs as [|r rs' IH]; intros done Hroomy Hq.
    - inversion Hq.
    - inversion Hroomy as [|? ? Hr Hroomy']; subst. simpl.
      destruct (inRange r target) eqn:Ec.
      + apply Exists_app. right. left. now apply inRange_iff.
      + replace (done ++ r :: rs') with ((done ++ [r]) ++ rs')
          by (rewrite <- app_assoc; reflexivity).
        destruct (Qltb cur (rstart r) && Qle_bool (rstart r) target) eqn:Eq.
        * apply safeSeekLoop_keeps_buffered; [exact Hroomy'|].
          apply Exists_app. right. left.
          apply andb_true_iff in Eq. destruct Eq as [_ Ht].
          apply Qle_bool_iff in Ht. unfold roomy in Hr. unfold contains.
          destruct (Qmin_cases (rend r - 0.5) target) as [[-> ?]|[-> ?]];
            split; lra.
        * apply IH; [exact Hroomy'|].
          inversion Hq as [? ? [Hc Ht]|]; subst; [|assumption].
          apply Qltb_iff in Hc. apply Qle_bool_iff in Ht.
          rewrite Hc, Ht in Eq. discriminate.
  Qed.

End SafeSeekBuffered.

(** When every buffered range is at least half a second long, the position
    returned for a qualifying range is a buffered one. *)
Lemma findSafeSeekPosition_buffered_when_roomy (a : Audio.t) (target : Q) :
  Forall roomy (Audio.buffered a) ->
  Exists (contains target) (Audio.buffered a) \/
  Exists (qualifies (Audio.currentTime a) target) (Audio.buffered a) ->
  isPositionBuffered a (findSafeSeekPosition a target) = true.
Proof.
  intros Hroomy Hq.
  rewrite isPositionBuffered_loop, findSafeSeekPosition_loop.
  apply isBufferedLoop_iff.
  destruct Hq as [Hc|Hq].
  - rewrite (safeSeekLoop_contains target _ _ Hc). exact Hc.
  - apply (safeSeekLoop_reaches_buffered target _ [] _ Hroomy Hq).
Qed.

(** With no range holding the target and none starting between the current
    position and the target, the current position comes back as it is. *)
Lemma findSafeSeekPosition_no_qualifying (a : Audio.t) (target : Q) :
  ~ Exists (contains target) (Audio.buffered a) ->
  ~ Exists (qualifies (Audio.currentTime a) target) (Audio.buffered a) ->
  findSafeSeekPosition a target = Audio.currentTime a.
Proof.
  rewrite findSafeSeekPosition_loop.
  generalize (Audio.currentTime a) as cur.
  induction (Audio.buffered a) as [|r rs IH]; intros cur Hc Hq; [reflexivity|].
  simpl.
  destruct (inRange r target) eqn:Ec.
  { exfalso. apply Hc. left. now apply inRange_iff. }
  destruct (Qltb cur (rstart r) && Qle_bool (rstart r) target) eqn:Eq.
  { exfalso. apply Hq. left.
    apply andb_true_iff in Eq. destruct Eq as [H1 H2].
    apply Qltb_iff in H1. apply Qle_bool_iff in H2. now split. }
  apply IH; intros H; [apply Hc|apply Hq]; now right.
Qed.

Section BufferedEnd.

Variable cur : Q.

  (** The [break]: the first range holding the position decides. *)
Lemma bufferedEndLoop_first (before after : list Range) (r : Range) :
    forall f : Q,
      Forall (fun r' => ~ contains cur r') before ->
      contains cur r ->
      bufferedEndLoop cur f (before ++ r :: after) = rend r.
  Proof.
    induction before as [|r0 before IH]; intros f Hb Hr; simpl.
    - apply inRange_iff in Hr. now rewrite Hr.
    - inversion Hb as [|? ? H0 Hb']; subst.
      apply inRange_false_iff in H0. rewrite H0.
      destruct (Qltb cur (rstart r0)); now apply IH.
  Qed.

Lemma bufferedEndLoop_lower (rs : list Range) :
    forall f : Q, cur <= f -> cur <= bufferedEndLoop cur f rs.
  Proof.
    induction rs as [|r rs IH]; intros f Hf; simpl; [exact Hf|].
    destruct (inRange r cur) eqn:Ec.
    - apply inRange_iff in Ec. apply Ec.
    - destruct (Qltb cur (rstart r)); apply IH; [|exact Hf].
      destruct (Qmax_cases f (rend r)) as [[-> ?]|[-> ?]]; lra.
  Qed.

  (** With no range holding the position, the loop keeps the largest of the
      initial value and the ends of the ranges that start after it. *)
Lemma bufferedEndLoop_ahead (rs : list Range) :
    forall f : Q,
      Forall (fun r => ~ contains cur r) rs ->
      (bufferedEndLoop cur f rs = f /\
       forall r', In r' rs -> startsAfter cur r' -> rend r' <= f) \/
      (exists r, In r rs /\ startsAfter cur r /\ f < rend r /\
         bufferedEndLoop cur f rs = rend r /\
         forall r', In r' rs -> startsAfter cur r' -> rend r' <= rend r).
  Proof.
    induction rs as [|r rs IH]; intros f Hnc; simpl.
    - left. split; [reflexivity|]. intros r' [].
    - inversion Hnc as [|? ? Hr Hnc']; subst.
      apply inRange_false_iff in Hr. rewrite Hr.
      destruct (Qltb cur (rstart r)) eqn:Ea.
      + apply Qltb_iff in Ea.
        destruct (Qmax_cases f (rend r)) as [[-> Hle]|[-> Hlt]].
        * destruct (IH f Hnc') as [[-> Hall]|(r1 & Hin & Ha & Hf & -> & Hall)].
          -- left. split; [reflexivity|].
             intros r' [<-|Hin] Hr'; [exact Hle|now apply Hall].
          -- right. exists r1. split; [now right|].
             repeat split; try assumption.
             intros r' [<-|Hin'] Hr'; [lra|now apply Hall].
        * right.
          destruct (IH (rend r) Hnc')
            as [[-> Hall]|(r1 & Hin & Ha & Hf & -> & Hall)].
          -- exists r. split; [now left|].
             repeat split; try assumption.
             intros r' [<-|Hin] Hr'; [lra|now apply Hall].
          -- exists r1. split; [now right|].
             repeat split; try assumption; [lra|].
             intros r' [<-|Hin'] Hr'; [lra|now apply Hall].
      + apply Qltb_false_iff in Ea.
        destruct (IH f Hnc') as [[-> Hall]|(r1 & Hin & Ha & Hf & -> & Hall)].
        * left. split; [reflexivity|].
          intros r' [<-|Hin] Hr'; [unfold startsAfter in Hr'; lra|].
          now apply Hall.
        * right. exists r1. split; [now right|].
          repeat split; try assumption.
          intros r' [<-|Hin'] Hr'; [unfold startsAfter in Hr'; lra|].
          now apply Hall.
  Qed.

End BufferedEnd.

(** C5, as the specification words it, fails: with the playhead at 10.0 and
    only [[15,20]] buffered, no range holds the playhead, and the result is
    20, not 10. *)
Lemma furthestContiguousEnd_spec_fails :
  ~ furthestContiguousEnd_spec aheadOnlyAudio.
Proof.
  intros [_ H].
  assert (getCurrentBufferedEnd aheadOnlyAudio == 10) as E.
  { apply H. intros Hex.
    inversion Hex as [? ? [Hc _]|? ? Hex']; subst.
    - simpl in Hc. lra.
    - inversion Hex'. }
  vm_compute in E. discriminate.
Qed.

(** C5, amended.  [getCurrentBufferedEnd] returns the end of the first range
    that holds the current position; when no range holds it and no range
    starts after it, the current position comes back unchanged. *)
Theorem getCurrentBufferedEnd_containing (a : Audio.t) :
  (forall r, firstContaining (Audio.currentTime a) r (Audio.buffered a) ->
             getCurrentBufferedEnd a = rend r) /\
  (~ Exists (contains (Audio.currentTime a)) (Audio.buffered a) ->
   ~ Exists (startsAfter (Audio.currentTime a)) (Audio.buffered a) ->
   getCurrentBufferedEnd a = Audio.currentTime a).
Proof.
  rewrite getCurrentBufferedEnd_loop. split.
  - intros r (before & after & -> & Hb & Hr).
    now apply bufferedEndLoop_first.
  - intros Hc Ha. apply Forall_Exists_neg in Hc.
    destruct (bufferedEndLoop_ahead (Audio.currentTime a) _
                (Audio.currentTime a) Hc)
      as [[H _]|(r & Hin & Hr & _)]; [exact H|].
    exfalso. apply Ha. apply Exists_exists. now exists r.
Qed.

Lemma getCurrentBufferedEnd_containing_witness :
  getCurrentBufferedEnd scenario3 = 12.
Proof.
  apply (proj1 (getCurrentBufferedEnd_containing scenario3) (mkRange 0 12)).
  exists [], [mkRange 15 20]. split; [reflexivity|].
  split; [constructor|]. split; simpl; lra.
Defined.

(** C10.  [getCurrentBufferedEnd] never returns less than the current
    position: it returns the end of the (first) range holding the position
    when there is one; otherwise the largest end among the ranges that
    start after the position; and the position itself when there is no
    such range. *)
Theorem getCurrentBufferedEnd_ahead (a : Audio.t)
  (Hwf : Forall wellFormed (Audio.buffered a)) :
  let cur := Audio.currentTime a in
  let rs := Audio.buffered a in
  cur <= getCurrentBufferedEnd a /\
  (forall r, firstContaining cur r rs -> getCurrentBufferedEnd a = rend r) /\
  (~ Exists (contains cur) rs -> Exists (startsAfter cur) rs ->
   exists r, In r rs /\ startsAfter cur r /\
     getCurrentBufferedEnd a = rend r /\
     forall r', In r' rs -> startsAfter cur r' -> rend r' <= rend r) /\
  (~ Exists (contains cur) rs -> ~ Exists (startsAfter cur) rs ->
   getCurrentBufferedEnd a = cur).
Proof.
  intros cur rs. rewrite getCurrentBufferedEnd_loop. fold cur rs.
  split; [apply bufferedEndLoop_lower; lra|].
  split.
  { intros r (before & after & -> & Hb & Hr). now apply bufferedEndLoop_first. }
  split; intros Hc Ha; apply Forall_Exists_neg in Hc.
  - destruct (bufferedEndLoop_ahead cur rs cur Hc)
      as [[_ Hall]|(r & Hin & Hr & _ & E & Hall)].
    + exfalso. apply Exists_exists in Ha. destruct Ha as (r & Hin & Hr).
      specialize (Hall r Hin Hr).
      unfold rs in Hin. rewrite Forall_forall in Hwf.
      specialize (Hwf r Hin). unfold wellFormed in Hwf.
      unfold startsAfter in Hr. lra.
    + exists r. repeat split; assumption.
  - destruct (bufferedEndLoop_ahead cur rs cur Hc)
      as [[H _]|(r & Hin & Hr & _)]; [exact H|].
    exfalso. apply Ha. apply Exists_exists. now exists r.
Qed.

Lemma getCurrentBufferedEnd_ahead_witness :
  Forall wellFormed (Audio.buffered aheadOnlyAudio) /\
  10 <= getCurrentBufferedEnd aheadOnlyAudio.
Proof.
  assert (Forall wellFormed (Audio.buffered aheadOnlyAudio)) as H.
  { repeat constructor. unfold wellFormed. simpl. lra. }
  split; [exact H|].
  apply (proj1 (getCurrentBufferedEnd_ahead aheadOnlyAudio H)).
Defined.

(** ** The corrector: results *)

(** The stages of [sync], one equation per way through the function. *)
Lemma sync_stuck c force st a now0 now1 :
  stuckNow st a = true ->
  sync c force st a now0 now1 =
  let count := (match _stuckCount st with Some n => n | None => 0 end + 1)%Z in
  if (10 <? count)%Z
  then (mkState (primedLastTime st a) (Some 0%Z) (_looping st) (_lastSeek st),
        [RecoverFromStuck (targetTime c now0)])
  else (mkState (primedLastTime st a) (Some count) (_looping st) (_lastSeek st),
        []).
Proof. intros H. unfold sync. now rewrite H. Qed.

Lemma sync_loop c force st a now0 now1 :
  stuckNow st a = false ->
  nearLoopEnd a && negb (_looping st) = true ->
  sync c force st a now0 now1 =
  (mkState (Some (Audio.currentTime a)) (Some 0%Z) true (_lastSeek st),
   [SetCurrentTime LoopSeek (targetTime c now0); SetTimeoutLoopingOff 200]).
Proof. intros H1 H2. unfold sync. now rewrite H1, H2. Qed.

Lemma sync_correction c force st a now0 now1 :
  stuckNow st a = false ->
  nearLoopEnd a && negb (_looping st) = false ->
  sync c force st a now0 now1 =
  let drift := (Audio.currentTime a - targetTime c now0) * 1000 in
  if (force || driftExceeds c drift) && seekAllowed st now1
  then (mkState (Some (Audio.currentTime a)) (Some 0%Z) (_looping st)
          (Some now1),
        correction a (targetTime c now0))
  else (mkState (Some (Audio.currentTime a)) (Some 0%Z) (_looping st)
          (_lastSeek st), []).
Proof.
  intros H1 H2. unfold sync. rewrite H1, H2. cbv zeta.
  destruct (force || driftExceeds c _); simpl; [|reflexivity].
  destruct (seekAllowed st now1); reflexivity.
Qed.

(** The MP3 tactic and the direct seek issue at most one seek, never a
    loop seek. *)
Lemma correction_seeks (a : Audio.t) (target : Q) :
  filter isCorrectionSeek (correction a target) = seeksOf (correction a target) /\
  (length (seeksOf (correction a target)) <= 1)%nat.
Proof.
  unfold correction, mp3Correction, seeksOf.
  destruct (Audio.src_includes_mp3 a); [|simpl; split; [reflexivity|lia]].
  repeat match goal with
         | |- context [if ?b then _ else _] => destruct b
         end; simpl; split; try reflexivity; lia.
Qed.

(** *** C6: the rate limit *)

(** What one call of [sync] does to [_lastSeek], and the correction seeks it
    issues. *)
Lemma sync_lastSeek c force st a now0 now1 :
  let (st1, effects) := sync c force st a now0 now1 in
  (filter isCorrectionSeek effects = [] /\ _lastSeek st1 = _lastSeek st) \/
  (seekAllowed st now1 = true /\ _lastSeek st1 = Some now1 /\
   (length (filter isCorrectionSeek effects) <= 1)%nat).
Proof.
  destruct (stuckNow st a) eqn:Es.
  - rewrite (sync_stuck _ _ _ _ _ _ Es). cbv zeta.
    destruct (10 <? _)%Z; left; split; reflexivity.
  - destruct (nearLoopEnd a && negb (_looping st)) eqn:El.
    + rewrite (sync_loop _ _ _ _ _ _ Es El). left. split; reflexivity.
    + rewrite (sync_correction _ _ _ _ _ _ Es El). cbv zeta.
      destruct (force || driftExceeds c _); simpl;
        [|left; split; reflexivity].
      destruct (seekAllowed st now1) eqn:Ea; [|left; split; reflexivity].
      right. split; [reflexivity|]. split; [reflexivity|].
      destruct (correction_seeks a (targetTime c now0)) as [-> H]. exact H.
Qed.

Lemma correctionTimes_app (l1 l2 : list (Z * Effect)) :
  correctionTimes (l1 ++ l2) = correctionTimes l1 ++ correctionTimes l2.
Proof.
  unfold correctionTimes. now rewrite filter_app, map_app.
Qed.

Lemma correctionTimes_stamped (now1 : Z) (effects : list Effect) :
  correctionTimes (map (pair now1) effects) =
  map (fun _ => now1) (filter isCorrectionSeek effects).
Proof.
  unfold correctionTimes.
  induction effects as [|e effects IH]; simpl; [reflexivity|].
  destruct (isCorrectionSeek e); simpl; now rewrite IH.
Qed.

(** One event: either [_lastSeek] stays and no correction seek is logged,
    or the rate limit let the call through at its clock reading, which
    becomes [_lastSeek] and stamps the one seek logged, if any. *)
Lemma step_lastSeek c st ev :
  let (st1, log) := step c st ev in
  (correctionTimes log = [] /\ _lastSeek st1 = _lastSeek st) \/
  (exists now1, eventClock ev = Some now1 /\
     seekAllowed st now1 = true /\ _lastSeek st1 = Some now1 /\
     (correctionTimes log = [] \/ correctionTimes log = [now1])).
Proof.
  assert (forall force a now0 now1,
    let (st1, effects) := sync c force st a now0 now1 in
    (correctionTimes (map (pair now1) effects) = [] /\
     _lastSeek st1 = _lastSeek st) \/
    (seekAllowed st now1 = true /\ _lastSeek st1 = Some now1 /\
     (correctionTimes (map (pair now1) effects) = [] \/
      correctionTimes (map (pair now1) effects) = [now1]))) as Hsync.
  { intros force a now0 now1.
    pose proof (sync_lastSeek c force st a now0 now1) as H.
    destruct (sync c force st a now0 now1) as [st1 effects].
    rewrite correctionTimes_stamped.
    destruct H as [[-> H]|(Ha & Hl & Hn)].
    - left. split; [reflexivity|exact H].
    - right. split; [exact Ha|]. split; [exact Hl|].
      destruct (filter isCorrectionSeek effects) as [|e [|e' l]];
        simpl in *; [now left|now right|lia]. }
  destruct ev as [a now0 now1|a now0 now1|offset a now0 now1|]; simpl.
  - specialize (Hsync false a now0 now1).
    destruct (sync c false st a now0 now1) as [st1 effects].
    destruct Hsync as [H|H]; [now left|right; now exists now1].
  - specialize (Hsync true a now0 now1).
    destruct (sync c true st a now0 now1) as [st1 effects].
    destruct Hsync as [H|H]; [now left|right; now exists now1].
  - unfold seek.
    destruct (Audio.paused (Audio.setCurrentTime a (seekPosition a offset))).
    + left. split; reflexivity.
    + specialize (Hsync true (Audio.setCurrentTime a (seekPosition a offset))
                        now0 now1).
      destruct (sync c true st _ now0 now1) as [st1 effects].
      destruct Hsync as [H|H]; [now left|right; now exists now1].
  - left. split; reflexivity.
Qed.

Lemma seekAllowed_lastSeek (st st' : SyncState) (t : Z) :
  _lastSeek st' = _lastSeek st -> seekAllowed st' t = seekAllowed st t.
Proof. unfold seekAllowed. now intros ->. Qed.

Lemma seekAllowed_after (st : SyncState) (l t : Z) :
  _lastSeek st = Some l -> l <> 0%Z -> seekAllowed st t = true -> gap l t.
Proof.
  unfold seekAllowed, gap. intros -> Hl. simpl.
  destruct (l =? 0)%Z eqn:E; [apply Z.eqb_eq in E; contradiction|].
  simpl. intros H. apply Z.ltb_lt in H. lia.
Qed.

Lemma seekAllowed_chain (st : SyncState) (t1 t2 : Z) :
  seekAllowed st t1 = true -> gap t1 t2 -> seekAllowed st t2 = true.
Proof.
  unfold seekAllowed, gap. destruct (_lastSeek st) as [l|]; simpl; [|reflexivity].
  destruct (l =? 0)%Z; simpl; [reflexivity|].
  intros H1 H2. apply Z.ltb_lt in H1. apply Z.ltb_lt. lia.
Qed.

(** The invariant of a run: the logged correction seeks are pairwise more
    than 500 ms apart, in order, and each passed the rate limit of the
    starting state. *)
Lemma run_spaced c (evs : list Event) :
  forall st,
    Forall (fun ev => eventClock ev <> Some 0%Z) evs ->
    StronglySorted gap (correctionTimes (snd (run c st evs))) /\
    Forall (fun t => seekAllowed st t = true)
           (correctionTimes (snd (run c st evs))).
Proof.
  induction evs as [|ev evs IH]; intros st Hclk.
  - simpl. split; constructor.
  - inversion Hclk as [|? ? Hev Hclk']; subst. simpl.
    pose proof (step_lastSeek c st ev) as Hstep.
    destruct (step c st ev) as [st1 log1].
    specialize (IH st1 Hclk').
    destruct (run c st1 evs) as [st2 log2]. simpl in *.
    destruct IH as [Hsorted Hall].
    rewrite correctionTimes_app.
    destruct Hstep as [[-> Hl]|(now1 & Hc & Ha & Hl & Hlog)].
    + simpl. split; [exact Hsorted|].
      eapply Forall_impl; [|exact Hall].
      intros t Ht. now rewrite <- (seekAllowed_lastSeek st st1 t Hl).
    + assert (now1 <> 0%Z) as Hnz by (intros ->; now apply Hev).
      assert (Forall (gap now1) (correctionTimes log2)) as Hgap.
      { eapply Forall_impl; [|exact Hall].
        intros t Ht. now apply (seekAllowed_after st1). }
      assert (Forall (fun t => seekAllowed st t = true) (correctionTimes log2))
        as Hall'.
      { eapply Forall_impl; [|exact Hgap].
        intros t Ht. now apply (seekAllowed_chain st now1). }
      destruct Hlog as [->| ->]; simpl.
      * split; assumption.
      * split; constructor; assumption.
Qed.

Lemma StronglySorted_middle (R : Z -> Z -> Prop) (l1 l2 l3 : list Z) (x y : Z) :
  StronglySorted R (l1 ++ x :: l2 ++ y :: l3) -> R x y.
Proof.
  induction l1 as [|z l1 IH]; simpl; intros H.
  - apply StronglySorted_inv in H. destruct H as [_ H].
    rewrite Forall_forall in H. apply H.
    apply in_or_app. right. now left.
  - apply StronglySorted_inv in H. now apply IH.
Qed.

(** C6, as the specification words it, fails both ways.  A correction at
    1799.95 followed 16 ms later by the loop seek of the next tick; and, under
    major drift at both ticks, the loop seek of one tick followed 16 ms later
    by the direct seek of the next (the flag of the loop transition holds
    back the loop detection only). *)
Lemma seek_rate_limit_spec_fails : ~ seeksSpaced_spec /\ ~ twoTicks_spec.
Proof.
  split.
  - intros H.
    specialize (H desktop
      [Tick (hlsAt 900) 1799950 1799950;
       Tick (hlsAt 1799.966) 1799966 1799966]
      [] 1799950%Z (SetCurrentTime DirectSeek (targetTime desktop 1799950))
      [] 1799966%Z (SetCurrentTime LoopSeek (targetTime desktop 1799966))
      [(1799966%Z, SetTimeoutLoopingOff 200)]).
    assert (1799950 + 500 < 1799966)%Z as Hlt; [|lia].
    apply H; try reflexivity.
    repeat constructor; discriminate.
  - intros H.
    specialize (H desktop initialState (hlsAt 1799.95) (hlsAt 1799.95)
                  1000000%Z 1000016%Z).
    assert (majorDrift desktop (hlsAt 1799.95) 1000000) as H1 by reflexivity.
    assert (majorDrift desktop (hlsAt 1799.95) 1000016) as H2 by reflexivity.
    specialize (H ltac:(lia) H1 H2).
    vm_compute in H. lia.
Qed.

(** C6, amended.  In every run whose clock readings are non-zero, any two
    seeks issued by the drift-correction block are more than 500 ms apart,
    however close the events; the loop seek is outside this limit. *)
Theorem correction_seeks_spaced (c : Component) (evs : list Event)
  (Hclock : Forall (fun ev => eventClock ev <> Some 0%Z) evs) :
  forall log1 t1 e1 log2 t2 e2 log3,
    snd (run c initialState evs) =
      log1 ++ (t1, e1) :: log2 ++ (t2, e2) :: log3 ->
    isCorrectionSeek e1 = true -> isCorrectionSeek e2 = true ->
    (t1 + 500 < t2)%Z.
Proof.
  intros log1 t1 e1 log2 t2 e2 log3 Hlog H1 H2.
  destruct (run_spaced c evs initialState Hclock) as [Hs _].
  rewrite Hlog in Hs.
  rewrite correctionTimes_app in Hs.
  change ((t1, e1) :: log2 ++ (t2, e2) :: log3)
    with ([(t1, e1)] ++ log2 ++ [(t2, e2)] ++ log3) in Hs.
  rewrite !correctionTimes_app in Hs.
  unfold correctionTimes at 2 4 in Hs. simpl in Hs.
  rewrite H1, H2 in Hs. simpl in Hs.
  exact (StronglySorted_middle gap _ _ _ _ _ Hs).
Qed.

Lemma correction_seeks_spaced_witness :
  Forall (fun ev => eventClock ev <> Some 0%Z) twoCorrections /\
  (1000000 + 500 < 1000600)%Z.
Proof.
  assert (Forall (fun ev => eventClock ev <> Some 0%Z) twoCorrections) as H
    by (repeat constructor; discriminate).
  split; [exact H|].
  apply (correction_seeks_spaced desktop twoCorrections H
           [] 1000000%Z (SetCurrentTime DirectSeek (targetTime desktop 1000000))
           [] 1000600%Z (SetCurrentTime DirectSeek (targetTime desktop 1000600))
           []); reflexivity.
Defined.

(** *** C7: the loop boundary *)

Lemma nearLoopEnd_iff (a : Audio.t) :
  nearLoopEnd a = true <->
  exists d, Audio.duration a = DurSeconds d /\ ~ d == 0 /\
            0 < d - Audio.currentTime a /\ d - Audio.currentTime a <= 0.1.
Proof.
  unfold nearLoopEnd. split.
  - destruct (Audio.duration a) as [| |d]; try discriminate.
    rewrite !andb_true_iff, negb_true_iff, Qle_bool_iff, Qltb_iff.
    intros (Hd & Hle & Hlt). exists d. split; [reflexivity|].
    split; [|split; assumption].
    intros E. apply Qeq_bool_iff in E. congruence.
  - intros (d & -> & Hd & Hlt & Hle).
    rewrite !andb_true_iff, negb_true_iff, Qle_bool_iff, Qltb_iff.
    split; [|split; assumption].
    destruct (Qeq_bool d 0) eqn:E; [|reflexivity].
    apply Qeq_bool_iff in E. contradiction.
Qed.

(** C7, as the specification words it, fails: 50 ms before the end of the
    media the guard seeks and raises its flag, and the very next tick,
    16 ms later, still under major drift, seeks again. *)
Lemma loopGuard_spec_fails : ~ loopGuard_spec.
Proof.
  intros H.
  specialize (H desktop false initialState (hlsAt 1799.95)
                1000000%Z 1000000%Z 1800 eq_refl).
  assert (0 < 1800 - Audio.currentTime (hlsAt 1799.95)) as H1 by reflexivity.
  assert (1800 - Audio.currentTime (hlsAt 1799.95) <= 0.1) as H2
    by (simpl; lra).
  specialize (H H1 H2).
  destruct (sync desktop false initialState (hlsAt 1799.95) 1000000 1000000)
    as [st1 effects] eqn:E.
  destruct H as (_ & _ & _ & H).
  specialize (H false (hlsAt 1799.95) 1000016%Z 1000016%Z ltac:(lia)).
  vm_compute in E. injection E as <- _.
  vm_compute in H. discriminate.
Qed.

(** C7, amended.  On a call that is not taken by the stuck branch and finds
    the looping flag clear, with the media duration known and non-zero and
    [duration - currentTime] in [(0, 0.1]], [sync] seeks to the target
    position and does nothing else, raises the looping flag and schedules
    its reset 200 ms later.  While the flag is up no call issues a loop
    seek; the timer callback lowers it. *)
Theorem loop_guard (c : Component) (force : bool) (st : SyncState)
  (a : Audio.t) (now0 now1 : Z) (d : Q)
  (Hdur : Audio.duration a = DurSeconds d) (Hd : ~ d == 0)
  (Hpos : 0 < d - Audio.currentTime a) (Hend : d - Audio.currentTime a <= 0.1)
  (Hstuck : stuckNow st a = false) (Hflag : _looping st = false) :
  sync c force st a now0 now1 =
    (mkState (Some (Audio.currentTime a)) (Some 0%Z) true (_lastSeek st),
     [SetCurrentTime LoopSeek (targetTime c now0); SetTimeoutLoopingOff 200]) /\
  (forall force' st' a' n0 n1 pos,
      _looping st' = true ->
      ~ In (SetCurrentTime LoopSeek pos) (snd (sync c force' st' a' n0 n1))) /\
  (forall st', _looping (fst (step c st' LoopTimer)) = false).
Proof.
  split; [|split].
  - apply sync_loop; [exact Hstuck|].
    rewrite Hflag, andb_true_r. apply nearLoopEnd_iff. now exists d.
  - intros force' st' a' n0 n1 pos Hl.
    destruct (stuckNow st' a') eqn:Es.
    + rewrite (sync_stuck _ _ _ _ _ _ Es). cbv zeta.
      destruct (10 <? _)%Z; simpl; intros H; [|exact H].
      destruct H as [H|[]]. discriminate.
    + assert (nearLoopEnd a' && negb (_looping st') = false) as El
        by (rewrite Hl; apply andb_false_r).
      rewrite (sync_correction _ _ _ _ _ _ Es El). cbv zeta.
      destruct ((force' || driftExceeds c _) && seekAllowed st' n1); simpl;
        [|intros H; exact H].
      unfold correction, mp3Correction.
      repeat match goal with
             | |- context [if ?b then _ else _] => destruct b
             end; simpl; intros H;
        repeat (destruct H as [H|H]; [discriminate|]); exact H.
  - reflexivity.
Qed.

Lemma loop_guard_witness :
  sync desktop false initialState (hlsAt 1799.95) 1000000 1000000 =
  (mkState (Some 1799.95) (Some 0%Z) true None,
   [SetCurrentTime LoopSeek (targetTime desktop 1000000);
    SetTimeoutLoopingOff 200]).
Proof.
  apply (proj1 (loop_guard desktop false initialState (hlsAt 1799.95)
                  1000000 1000000 1800 eq_refl
                  ltac:(discriminate) ltac:(reflexivity)
                  ltac:(discriminate) eq_refl eq_refl)).
Defined.

(** *** C9: the explicit seek *)

(** C9, as the specification words it, fails: a seek by the caller 200 ms
    after the correction that opened playback brings no correction. *)
Lemma explicitSeek_spec_fails : ~ explicitSeek_spec.
Proof.
  intros H.
  apply (H desktop justCorrected 10 (hlsAt 900) 1000200%Z 1000200%Z eq_refl).
  reflexivity.
Qed.

(** C9, amended.  A seek by the caller during playback moves the position
    and calls [sync] with [force] set.  Past the stuck branch and the loop
    guard, the correction block of [sync] runs exactly when ([force] or the
    drift exceeds the tolerance) and the rate limit allows it (no time of a
    last correction, or more than 500 ms since): [force] stands in for the
    tolerance test, not for the rate limit. *)
Theorem forced_correction_is_rate_limited (c : Component) (st : SyncState)
  (a : Audio.t) (now0 now1 : Z)
  (Hstuck : stuckNow st a = false)
  (Hloop : nearLoopEnd a && negb (_looping st) = false) :
  (forall force,
      snd (sync c force st a now0 now1) =
      if (force ||
          driftExceeds c ((Audio.currentTime a - targetTime c now0) * 1000)) &&
         seekAllowed st now1
      then correction a (targetTime c now0) else []) /\
  (forall offset a0,
      Audio.paused a0 = false ->
      a = Audio.setCurrentTime a0 (seekPosition a0 offset) ->
      snd (seek c st a0 offset now0 now1) =
      if seekAllowed st now1 then correction a (targetTime c now0) else []).
Proof.
  assert (forall force,
      snd (sync c force st a now0 now1) =
      if (force ||
          driftExceeds c ((Audio.currentTime a - targetTime c now0) * 1000)) &&
         seekAllowed st now1
      then correction a (targetTime c now0) else []) as Hsync.
  { intros force. rewrite (sync_correction _ _ _ _ _ _ Hstuck Hloop).
    cbv zeta.
    destruct ((force || driftExceeds c _) && seekAllowed st now1);
      reflexivity. }
  split; [exact Hsync|].
  intros offset a0 Hp ->. unfold seek.
  change (Audio.paused (Audio.setCurrentTime a0 (seekPosition a0 offset)))
    with (Audio.paused a0).
  rewrite Hp. specialize (Hsync true).
  destruct (sync c true st _ now0 now1) as [st1 effects].
  simpl in *. exact Hsync.
Qed.

Lemma forced_correction_is_rate_limited_witness :
  snd (seek desktop justCorrected (hlsAt 900) 10 1000200 1000200) = [] /\
  snd (seek desktop justCorrected (hlsAt 900) 10 1000501 1000501) =
    [SetCurrentTime DirectSeek (targetTime desktop 1000501)].
Proof.
  split.
  - apply (proj2 (forced_correction_is_rate_limited desktop justCorrected
                    (hlsAt 910) 1000200 1000200 eq_refl eq_refl)
                 10 (hlsAt 900) eq_refl eq_refl).
  - apply (proj2 (forced_correction_is_rate_limited desktop justCorrected
                    (hlsAt 910) 1000501 1000501 eq_refl eq_refl)
                 10 (hlsAt 900) eq_refl eq_refl).
Defined.

(** *** C8: stuck detection *)

Lemma stuckNow_stalled (st : SyncState) (a : Audio.t) (p : Q) :
  stalledAt p a -> p < 2 -> lastIs st p ->
  stuckNow st a = true /\ strictEq (primedLastTime st a) p = true.
Proof.
  intros (Hmp3 & Hpl & Hcur) Hp Hlast.
  assert (strictEq (primedLastTime st a) p = true) as Hprimed.
  { unfold primedLastTime. rewrite Hpl. simpl.
    destruct Hlast as [Hf|He].
    - rewrite Hf. simpl. now apply Qeq_bool_iff.
    - destruct (truthy (_lastCurrentTime st)); simpl; [exact He|].
      now apply Qeq_bool_iff. }
  split; [|exact Hprimed].
  unfold stuckNow. rewrite Hmp3, Hpl. simpl.
  apply andb_true_iff. split.
  - destruct (primedLastTime st a) as [q|]; [|discriminate].
    simpl in *. apply Qeq_bool_iff in Hprimed. apply Qeq_bool_iff.
    now rewrite Hprimed, Hcur.
  - apply Qltb_iff. now rewrite Hcur.
Qed.

(** Outside the stuck branch every way through [sync] stores the position
    and clears the counter. *)
Lemma sync_not_stuck c force st a now0 now1 :
  stuckNow st a = false ->
  _stuckCount (fst (sync c force st a now0 now1)) = Some 0%Z /\
  _lastCurrentTime (fst (sync c force st a now0 now1)) =
    Some (Audio.currentTime a).
Proof.
  intros Hs. unfold sync. rewrite Hs. cbv zeta.
  destruct (nearLoopEnd a && negb (_looping st)); [split; reflexivity|].
  destruct (force || driftExceeds c _); [|split; reflexivity].
  destruct (seekAllowed st now1); split; reflexivity.
Qed.

(** A pause clears the counter at once. *)
Lemma sync_paused_resets c force st a now0 now1 :
  Audio.paused a = true ->
  _stuckCount (fst (sync c force st a now0 now1)) = Some 0%Z.
Proof.
  intros Hp. apply sync_not_stuck.
  unfold stuckNow. rewrite Hp. simpl. now rewrite andb_false_r.
Qed.

(** So does a position that differs from a non-zero last position. *)
Lemma sync_moved_resets c force st a now0 now1 :
  truthy (_lastCurrentTime st) = true ->
  strictEq (_lastCurrentTime st) (Audio.currentTime a) = false ->
  _stuckCount (fst (sync c force st a now0 now1)) = Some 0%Z.
Proof.
  intros Ht Hne. apply sync_not_stuck.
  unfold stuckNow, primedLastTime. rewrite Ht, andb_false_r, Hne.
  now rewrite andb_false_r.
Qed.

(** A last position of zero is taken for none: the new position replaces
    it before the comparison, and below 2 s the counter goes up although
    the position has moved. *)
Lemma sync_moved_from_zero c force st a now0 now1 :
  truthy (_lastCurrentTime st) = false ->
  Audio.src_includes_mp3 a = true -> Audio.paused a = false ->
  Audio.currentTime a < 2 ->
  stuckCount (fst (sync c force st a now0 now1)) =
    (if (10 <? stuckCount st + 1)%Z then 0 else stuckCount st + 1)%Z.
Proof.
  intros Ht Hmp3 Hpl Hcur.
  assert (stuckNow st a = true) as Hs.
  { apply (stuckNow_stalled st a (Audio.currentTime a)).
    - split; [exact Hmp3|]. split; [exact Hpl|reflexivity].
    - exact Hcur.
    - now left. }
  rewrite (sync_stuck _ _ _ _ _ _ Hs). cbv zeta. fold (stuckCount st).
  destruct (10 <? stuckCount st + 1)%Z; reflexivity.
Qed.

(** While the counter stays at or below ten, stalled ticks only count. *)
Lemma run_stalled_counts c (p : Q) (Hp : p < 2) (evs : list Event) :
  forall st,
    Forall (stalledTick p) evs -> lastIs st p ->
    (stuckCount st + Z.of_nat (length evs) <= 10)%Z ->
    snd (run c st evs) = [] /\
    stuckCount (fst (run c st evs)) =
      (stuckCount st + Z.of_nat (length evs))%Z /\
    lastIs (fst (run c st evs)) p.
Proof.
  induction evs as [|ev evs IH]; intros st Hall Hlast Hcount.
  - simpl. split; [reflexivity|]. split; [lia|exact Hlast].
  - inversion Hall as [|? ? Hev Hall']; subst.
    destruct ev as [a now0 now1| | |]; try contradiction.
    simpl in Hev. cbn [run step].
    destruct (stuckNow_stalled st a p Hev Hp Hlast) as [Hs Hprimed].
    rewrite (sync_stuck _ _ _ _ _ _ Hs). cbv zeta. fold (stuckCount st).
    cbn [length] in Hcount.
    assert ((10 <? stuckCount st + 1)%Z = false) as -> by (apply Z.ltb_ge; lia).
    set (st1 := mkState _ _ _ _).
    assert (lastIs st1 p) as Hlast1 by (right; exact Hprimed).
    assert (stuckCount st1 = (stuckCount st + 1)%Z) as Hc1 by reflexivity.
    specialize (IH st1 Hall' Hlast1 ltac:(lia)).
    destruct (run c st1 evs) as [st2 log2]. simpl in *.
    destruct IH as (-> & -> & Hl). split; [reflexivity|]. split; [lia|exact Hl].
Qed.

(** Eleven stalled ticks in a row, counted from zero with the position the
    last one observed (or none observed yet): the eleventh invokes the
    recovery, once, and leaves the counter at zero. *)
Lemma run_stalled_recovers c (p : Q) (evs : list Event) (st : SyncState)
  (a : Audio.t) (now0 now1 : Z) :
  p < 2 -> Forall (stalledTick p) evs -> length evs = 10%nat ->
  stalledAt p a -> lastIs st p -> stuckCount st = 0%Z ->
  snd (run c st (evs ++ [Tick a now0 now1])) =
    [(now1, RecoverFromStuck (targetTime c now0))] /\
  _stuckCount (fst (run c st (evs ++ [Tick a now0 now1]))) = Some 0%Z.
Proof.
  intros Hp Hall Hlen Ha Hlast Hzero.
  destruct (run_stalled_counts c p Hp evs st Hall Hlast ltac:(lia))
    as (Hlog & Hcount & Hlast').
  assert (forall l1 l2 s,
    run c s (l1 ++ l2) =
    (fst (run c (fst (run c s l1)) l2),
     snd (run c s l1) ++ snd (run c (fst (run c s l1)) l2))) as Happ.
  { induction l1 as [|e l1 IHl]; intros l2 s; simpl.
    - now destruct (run c s l2).
    - destruct (step c s e) as [s1 g1]. rewrite IHl.
      destruct (run c s1 l1) as [s2 g2]. simpl.
      now rewrite app_assoc. }
  rewrite Happ, Hlog. simpl.
  set (st10 := fst (run c st evs)) in *.
  destruct (stuckNow_stalled st10 a p Ha Hp Hlast') as [Hs _].
  rewrite (sync_stuck _ _ _ _ _ _ Hs). cbv zeta. fold (stuckCount st10).
  rewrite Hcount, Hzero, Hlen. simpl. split; reflexivity.
Qed.

(** C8.  A progressive source that sat at position 0 and then advances
    below 2 s is still counted as stuck: after one tick at 0 and one at
    0.5 the counter stands at 2, not 0; and after ten ticks at 0 the tick
    that sees the position advance to 0.016 invokes the recovery. *)
Theorem stuck_counter_kept_on_advance_from_zero :
  (let st1 := fst (sync desktop false initialState (mp3At 0) 1000000 1000000) in
   let st2 := fst (sync desktop false st1 (mp3At 0.5) 1000016 1000016) in
   _lastCurrentTime st1 = Some 0 /\ _stuckCount st1 = Some 1%Z /\
   _stuckCount st2 = Some 2%Z) /\
  (let st10 := fst (run desktop initialState tenTicksAtZero) in
   _stuckCount st10 = Some 10%Z /\
   snd (sync desktop false st10 (mp3At 0.016) 1000016 1000016) =
     [RecoverFromStuck (targetTime desktop 1000016)]).
Proof.
  split; cbv zeta; repeat split; reflexivity.
Qed.

(** ** The clock model: further results *)

Section NormalizeAlgebra.

Variable L : Q.
Hypothesis Lpos : 0 < L.

(** A value of [[0, L)] that differs from [z] by whole loops is the
    normal form of [z]. *)
Lemma normalize_unique (z u : Q) (k : Z) :
  0 <= u -> u < L -> u == z - L * inject_Z k ->
  u == ClockSpec.normalize L z.
Proof.
  intros Hu0 HuL E.
  destruct (normalize_loops L z) as [b Eb].
  pose proof (normalize_range L Lpos z) as [R0 RL].
  rewrite Eb in R0, RL.
  assert (k = b) as ->.
  { apply (loops_unique L Lpos z); split; try assumption; rewrite <- E;
      assumption. }
  now rewrite Eb.
Qed.

Lemma normalize_id (x : Q) :
  0 <= x -> x < L -> ClockSpec.normalize L x == x.
Proof.
  intros H0 HL. symmetry.
  apply (normalize_unique x x 0); [exact H0|exact HL|].
  change (inject_Z 0) with 0. ring.
Qed.

(** Normalising a summand first changes nothing. *)
Lemma normalize_add (x y : Q) :
  ClockSpec.normalize L (ClockSpec.normalize L x + y) ==
  ClockSpec.normalize L (x + y).
Proof.
  destruct (normalize_loops L x) as [a Ea].
  destruct (normalize_loops L (ClockSpec.normalize L x + y)) as [b Eb].
  pose proof (normalize_range L Lpos (ClockSpec.normalize L x + y)) as [R0 RL].
  apply (normalize_unique (x + y) _ (a + b)); [exact R0|exact RL|].
  rewrite Eb, Ea, inject_Z_plus. ring.
Qed.

End NormalizeAlgebra.

Lemma seconds_add (now dt : Z) :
  seconds (now + dt) == seconds now + inject_Z dt / 1000.
Proof.
  unfold seconds. rewrite inject_Z_plus. field.
Qed.

(** The target position at a later clock reading, from the earlier one. *)
Lemma targetTime_shift_clock (c : Component) (now dt : Z) :
  0 < duration c ->
  targetTime c (now + dt) ==
  ClockSpec.normalize (duration c) (targetTime c now + inject_Z dt / 1000).
Proof.
  intros HL. rewrite !targetTime_refines. unfold ClockSpec.targetPosition.
  rewrite (normalize_add _ HL). apply normalize_comp; [reflexivity|].
  rewrite seconds_add. ring.
Qed.

Lemma utc_shift_clock (c : Component) (now dt : Z) :
  0 < duration c ->
  utc c (now + dt) ==
  ClockSpec.normalize (duration c) (utc c now + inject_Z dt / 1000).
Proof.
  intros HL. rewrite !utc_is_normalize.
  rewrite (normalize_add _ HL). apply normalize_comp; [reflexivity|].
  rewrite seconds_add. ring.
Qed.







(** ** Seeking by the caller: further results *)

(** X4.  The position that [seek(offset)] writes is never negative; with a
    known media duration [d >= 0] it is at most [d], and it is
    [currentTime + offset] whenever that lies in [[0, d]]; before the
    metadata is loaded (duration NaN) it is 0 whatever the offset. *)
Theorem seekPosition_clamped (a : Audio.t) (offset : Q) :
  0 <= seekPosition a offset /\
  (forall d, Audio.duration a = DurSeconds d -> 0 <= d ->
             seekPosition a offset <= d) /\
  (forall d, Audio.duration a = DurSeconds d ->
             0 <= Audio.currentTime a + offset ->
             Audio.currentTime a + offset <= d ->
             seekPosition a offset == Audio.currentTime a + offset) /\
  (Audio.duration a = DurNaN -> seekPosition a offset == 0).
Proof.
  unfold seekPosition. cbv zeta.
  set (moved := Audio.currentTime a + offset).
  split; [|split; [|split]].
  - destruct (Audio.duration a) as [| |d];
      match goal with
      | |- 0 <= Qmax 0 ?x => destruct (Qmax_cases 0 x) as [[-> ?]|[-> ?]]
      end; lra.
  - intros d -> Hd.
    destruct (Qmax_cases 0 (Qmin d moved)) as [[-> ?]|[-> ?]]; [exact Hd|].
    destruct (Qmin_cases d moved) as [[-> ?]|[-> ?]]; lra.
  - intros d -> H0 Hd.
    destruct (Qmin_cases d moved) as [[E ?]|[E ?]]; rewrite E in *;
      destruct (Qmax_cases 0 d) as [[E1 ?]|[E1 ?]];
      destruct (Qmax_cases 0 moved) as [[E2 ?]|[E2 ?]];
      try rewrite E1; try rewrite E2; lra.
  - intros ->.
    destruct (Qmin_cases 0 moved) as [[E ?]|[E ?]]; rewrite E.
    + destruct (Qmax_cases 0 0) as [[-> ?]|[-> ?]]; reflexivity.
    + destruct (Qmax_cases 0 moved) as [[-> ?]|[-> ?]]; lra.
Qed.

Lemma seekPosition_clamped_witness :
  seekPosition pausedNearEnd 10 <= 1800 /\
  seekPosition pausedNearEnd (-10) == 1785.
Proof.
  destruct (seekPosition_clamped pausedNearEnd 10) as (_ & H & _).
  destruct (seekPosition_clamped pausedNearEnd (-10)) as (_ & _ & H' & _).
  split.
  - apply (H 1800 eq_refl). discriminate.
  - apply (H' 1800 eq_refl); discriminate.
Defined.

(** ** Buffered ranges: further results *)

(** X5.  [isPositionBuffered] answers true exactly when some buffered
    range holds the position, ends included; with nothing buffered it
    answers false. *)
Theorem isPositionBuffered_iff (a : Audio.t) (position : Q) :
  (isPositionBuffered a position = true <->
   Exists (contains position) (Audio.buffered a)) /\
  (Audio.buffered a = [] -> isPositionBuffered a position = false).
Proof.
  split.
  - rewrite isPositionBuffered_loop. apply isBufferedLoop_iff.
  - unfold isPositionBuffered. now intros ->.
Qed.

(** Where the value of the loop of [findSafeSeekPosition] comes from. *)
Lemma safeSeekLoop_provenance (target : Q) (rs : list Range) :
  forall s : Q,
    safeSeekLoop target s rs = s \/
    safeSeekLoop target s rs = target \/
    exists r, In r rs /\ rstart r <= target /\
              safeSeekLoop target s rs = Qmin (rend r - 0.5) target.
Proof.
  induction rs as [|r rs IH]; intros s; simpl; [now left|].
  destruct (inRange r target); [right; now left|].
  destruct (Qltb s (rstart r) && Qle_bool (rstart r) target) eqn:E.
  - apply andb_true_iff in E. destruct E as [_ Ht].
    apply Qle_bool_iff in Ht.
    destruct (IH (Qmin (rend r - 0.5) target)) as [->|[->|(r' & Hin & Hr & ->)]].
    + right. right. exists r. split; [now left|]. now split.
    + right. now left.
    + right. right. exists r'. split; [now right|]. now split.
  - destruct (IH s) as [->|[->|(r' & Hin & Hr & ->)]].
    + now left.
    + right. now left.
    + right. right. exists r'. split; [now right|]. now split.
Qed.

Lemma findSafeSeekPosition_le (a : Audio.t) (target : Q) :
  findSafeSeekPosition a target = Audio.currentTime a \/
  findSafeSeekPosition a target <= target.
Proof.
  rewrite findSafeSeekPosition_loop.
  destruct (safeSeekLoop_provenance target (Audio.buffered a)
              (Audio.currentTime a)) as [->|[->|(r & _ & _ & ->)]].
  - now left.
  - right. lra.
  - right. destruct (Qmin_cases (rend r - 0.5) target) as [[-> ?]|[-> ?]]; lra.
Qed.

(** X6.  Whatever the buffered ranges, [findSafeSeekPosition] returns the
    current position, the target, or [min (end - 0.5) target] for a range
    that starts at or before the target.  So it never returns a position
    beyond a target that lies ahead, and never one ahead of the current
    position when the target lies behind. *)
Theorem findSafeSeekPosition_provenance (a : Audio.t) (target : Q) :
  (findSafeSeekPosition a target = Audio.currentTime a \/
   findSafeSeekPosition a target = target \/
   exists r, In r (Audio.buffered a) /\ rstart r <= target /\
             findSafeSeekPosition a target = Qmin (rend r - 0.5) target) /\
  (Audio.currentTime a <= target -> findSafeSeekPosition a target <= target) /\
  (target <= Audio.currentTime a ->
   findSafeSeekPosition a target <= Audio.currentTime a).
Proof.
  split.
  - rewrite findSafeSeekPosition_loop. apply safeSeekLoop_provenance.
  - split; intros H;
      destruct (findSafeSeekPosition_le a target) as [->|Hle]; lra.
Qed.

(** ** The MP3 tactic: further results *)

(** X7.  When the target lies ahead of the current position, the MP3
    tactic always issues exactly one seek, followed by the resume check,
    to a position strictly ahead of the current one and not beyond the
    target. *)
Theorem mp3Correction_behind_target (a : Audio.t) (target : Q)
  (Hbehind : Audio.currentTime a < target) :
  exists kind pos,
    mp3Correction a target = [SetCurrentTime kind pos; EnsureMP3Playback] /\
    Audio.currentTime a < pos /\ pos <= target.
Proof.
  unfold mp3Correction. cbv zeta.
  destruct (Qltb (Audio.currentTime a) (findSafeSeekPosition a target)) eqn:E1.
  - apply Qltb_iff in E1.
    exists SafeAdvance, (findSafeSeekPosition a target).
    split; [reflexivity|]. split; [exact E1|].
    destruct (findSafeSeekPosition_le a target) as [E|Hle]; [|exact Hle].
    rewrite E in E1. lra.
  - destruct (Qltb (Audio.currentTime a + 0.5) (getCurrentBufferedEnd a)) eqn:E2.
    + apply Qltb_iff in E2.
      exists BufferEdgeJump, (Qmin (getCurrentBufferedEnd a - 0.2) target).
      split; [reflexivity|].
      destruct (Qmin_cases (getCurrentBufferedEnd a - 0.2) target)
        as [[-> ?]|[-> ?]]; split; lra.
    + assert (Audio.currentTime a < Qmin (Audio.currentTime a + 2) target
              /\ Qmin (Audio.currentTime a + 2) target <= target) as [Hlt Hle].
      { destruct (Qmin_cases (Audio.currentTime a + 2) target)
          as [[-> ?]|[-> ?]]; split; lra. }
      apply Qltb_iff in Hlt. rewrite Hlt.
      exists ForceJump, (Qmin (Audio.currentTime a + 2) target).
      split; [reflexivity|]. apply Qltb_iff in Hlt. now split.
Qed.

Lemma mp3Correction_behind_target_witness :
  exists kind pos,
    mp3Correction scenario3 18 = [SetCurrentTime kind pos; EnsureMP3Playback] /\
    Audio.currentTime scenario3 < pos /\ pos <= 18.
Proof.
  apply (mp3Correction_behind_target scenario3 18). reflexivity.
Defined.

(** X8.  When the target is at or behind the current position, the MP3
    tactic either does nothing, or, if more than half a second is buffered
    ahead, jumps back to exactly the target. *)
Theorem mp3Correction_ahead_of_target (a : Audio.t) (target : Q)
  (Hahead : target <= Audio.currentTime a) :
  (~ Audio.currentTime a + 0.5 < getCurrentBufferedEnd a /\
   mp3Correction a target = []) \/
  (Audio.currentTime a + 0.5 < getCurrentBufferedEnd a /\
   mp3Correction a target =
     [SetCurrentTime BufferEdgeJump target; EnsureMP3Playback]).
Proof.
  unfold mp3Correction. cbv zeta.
  destruct (Qltb (Audio.currentTime a) (findSafeSeekPosition a target)) eqn:E1.
  { apply Qltb_iff in E1.
    destruct (findSafeSeekPosition_le a target) as [E|Hle]; [rewrite E in E1|];
      lra. }
  destruct (Qltb (Audio.currentTime a + 0.5) (getCurrentBufferedEnd a)) eqn:E2.
  - apply Qltb_iff in E2. right. split; [exact E2|].
    destruct (Qmin_cases (getCurrentBufferedEnd a - 0.2) target)
      as [[_ ?]|[-> _]]; [lra|reflexivity].
  - apply Qltb_false_iff in E2. left. split; [lra|].
    destruct (Qltb (Audio.currentTime a) (Qmin (Audio.currentTime a + 2) target))
      eqn:E3; [|reflexivity].
    apply Qltb_iff in E3.
    destruct (Qmin_cases (Audio.currentTime a + 2) target)
      as [[E ?]|[E ?]]; rewrite E in E3; lra.
Qed.

Lemma mp3Correction_ahead_of_target_witness :
  mp3Correction scenario3 5 =
    [SetCurrentTime BufferEdgeJump 5; EnsureMP3Playback].
Proof.
  destruct (mp3Correction_ahead_of_target scenario3 5 ltac:(discriminate))
    as [[H _]|[_ H]]; [|exact H].
  exfalso. apply H. reflexivity.
Defined.

(** ** The corrector: further results *)

(** X9.  One call of [sync] assigns [audio.currentTime] at most once,
    whatever the state, the source and the clock. *)
Theorem sync_at_most_one_seek (c : Component) (force : bool) (st : SyncState)
  (a : Audio.t) (now0 now1 : Z) :
  (length (seeksOf (snd (sync c force st a now0 now1))) <= 1)%nat.
Proof.
  destruct (stuckNow st a) eqn:Es.
  - rewrite (sync_stuck _ _ _ _ _ _ Es). cbv zeta.
    destruct (10 <? _)%Z; simpl; lia.
  - destruct (nearLoopEnd a && negb (_looping st)) eqn:El.
    + rewrite (sync_loop _ _ _ _ _ _ Es El). simpl. lia.
    + rewrite (sync_correction _ _ _ _ _ _ Es El). cbv zeta.
      destruct ((force || driftExceeds c _) && seekAllowed st now1); simpl;
        [|lia].
      apply correction_seeks.
Qed.

(** X10.  On a source that is not an MP3, a call of [sync] does nothing, or
    seeks directly to the target position, or performs the loop seek to
    the target position with its 200 ms timer: it never invokes the stuck
    recovery or the resume check and never seeks anywhere but the target. *)
Theorem sync_non_mp3_effects (c : Component) (force : bool) (st : SyncState)
  (a : Audio.t) (now0 now1 : Z)
  (Hsrc : Audio.src_includes_mp3 a = false) :
  snd (sync c force st a now0 now1) = [] \/
  snd (sync c force st a now0 now1) =
    [SetCurrentTime DirectSeek (targetTime c now0)] \/
  snd (sync c force st a now0 now1) =
    [SetCurrentTime LoopSeek (targetTime c now0); SetTimeoutLoopingOff 200].
Proof.
  assert (stuckNow st a = false) as Es by (unfold stuckNow; now rewrite Hsrc).
  destruct (nearLoopEnd a && negb (_looping st)) eqn:El.
  - rewrite (sync_loop _ _ _ _ _ _ Es El). right. now right.
  - rewrite (sync_correction _ _ _ _ _ _ Es El). cbv zeta.
    destruct ((force || driftExceeds c _) && seekAllowed st now1); simpl;
      [|now left].
    unfold correction. rewrite Hsrc. right. now left.
Qed.

Lemma sync_non_mp3_effects_witness :
  snd (sync desktop true initialState (hlsAt 900) 905250 905250) =
    [SetCurrentTime DirectSeek (targetTime desktop 905250)].
Proof.
  destruct (sync_non_mp3_effects desktop true initialState (hlsAt 900)
              905250 905250 eq_refl) as [H|[H|H]];
    [discriminate H|exact H|discriminate H].
Defined.

(** X11.  While an MP3 source is playing below 2 s at the position last
    observed (or with none, or zero, observed so far), a call of [sync]
    assigns no position and leaves [_lastSeek] and the looping flag alone,
    forced or not: the opening [sync(true)] of playback at position 0
    corrects nothing. *)
Theorem sync_stalled_never_seeks (c : Component) (force : bool)
  (st : SyncState) (a : Audio.t) (now0 now1 : Z)
  (Hsrc : Audio.src_includes_mp3 a = true)
  (Hplaying : Audio.paused a = false)
  (Hlow : Audio.currentTime a < 2)
  (Hlast : lastIs st (Audio.currentTime a)) :
  seeksOf (snd (sync c force st a now0 now1)) = [] /\
  _lastSeek (fst (sync c force st a now0 now1)) = _lastSeek st /\
  _looping (fst (sync c force st a now0 now1)) = _looping st.
Proof.
  assert (stalledAt (Audio.currentTime a) a) as Hst
    by (split; [exact Hsrc|]; split; [exact Hplaying|reflexivity]).
  destruct (stuckNow_stalled st a _ Hst Hlow Hlast) as [Es _].
  rewrite (sync_stuck _ _ _ _ _ _ Es). cbv zeta.
  destruct (10 <? _)%Z; repeat split; reflexivity.
Qed.

Lemma sync_stalled_never_seeks_witness :
  seeksOf (snd (sync desktop true initialState (mp3At 0) 905250 905250)) = [].
Proof.
  apply (sync_stalled_never_seeks desktop true initialState (mp3At 0)
           905250 905250 eq_refl eq_refl eq_refl).
  left. reflexivity.
Defined.

(** X12.  An unforced call of [sync] whose drift is within the tolerance
    and whose position is not within the last 0.1 s of the media assigns
    no position and leaves [_lastSeek] as it was. *)
Theorem sync_within_tolerance (c : Component) (st : SyncState) (a : Audio.t)
  (now0 now1 : Z)
  (Hdrift : Qabs ((Audio.currentTime a - targetTime c now0) * 1000)
            <= allowed c)
  (Hend : nearLoopEnd a = false) :
  seeksOf (snd (sync c false st a now0 now1)) = [] /\
  _lastSeek (fst (sync c false st a now0 now1)) = _lastSeek st.
Proof.
  destruct (stuckNow st a) eqn:Es.
  - rewrite (sync_stuck _ _ _ _ _ _ Es). cbv zeta.
    destruct (10 <? _)%Z; split; reflexivity.
  - assert (nearLoopEnd a && negb (_looping st) = false) as El
      by now rewrite Hend.
    rewrite (sync_correction _ _ _ _ _ _ Es El). cbv zeta.
    assert (driftExceeds c ((Audio.currentTime a - targetTime c now0) * 1000)
            = false) as -> by (apply Qltb_false_iff; exact Hdrift).
    split; reflexivity.
Qed.

Lemma sync_within_tolerance_witness :
  seeksOf (snd (sync desktop false initialState (hlsAt 905.1) 905250 905250))
    = [].
Proof.
  apply (sync_within_tolerance desktop initialState (hlsAt 905.1)
           905250 905250); [discriminate|reflexivity].
Defined.

(** What one call of [sync] does to the looping flag. *)
Lemma sync_looping c force st a now0 now1 :
  let (st1, effects) := sync c force st a now0 now1 in
  (filter isLoopSeek effects = [] /\ _looping st1 = _looping st) \/
  (_looping st = false /\ _looping st1 = true /\
   length (filter isLoopSeek effects) = 1%nat).
Proof.
  destruct (stuckNow st a) eqn:Es.
  - rewrite (sync_stuck _ _ _ _ _ _ Es). cbv zeta.
    destruct (10 <? _)%Z; left; split; reflexivity.
  - destruct (nearLoopEnd a && negb (_looping st)) eqn:El.
    + rewrite (sync_loop _ _ _ _ _ _ Es El). right.
      apply andb_true_iff in El. destruct El as [_ El].
      apply negb_true_iff in El.
      split; [exact El|]. split; reflexivity.
    + rewrite (sync_correction _ _ _ _ _ _ Es El). cbv zeta.
      destruct ((force || driftExceeds c _) && seekAllowed st now1);
        left; split; try reflexivity.
      unfold correction, mp3Correction.
      repeat match goal with
             | |- context [if ?b then _ else _] => destruct b
             end; reflexivity.
Qed.

Lemma loopSeeksOf_stamped (now1 : Z) (effects : list Effect) :
  length (loopSeeksOf (map (pair now1) effects)) =
  length (filter isLoopSeek effects).
Proof.
  unfold loopSeeksOf.
  induction effects as [|e effects IH]; simpl; [reflexivity|].
  destruct (isLoopSeek e); simpl; now rewrite IH.
Qed.

Lemma step_looping c st ev :
  notLoopTimer ev ->
  let (st1, log) := step c st ev in
  (length (loopSeeksOf log) = 0%nat /\ _looping st1 = _looping st) \/
  (_looping st = false /\ _looping st1 = true /\
   length (loopSeeksOf log) = 1%nat).
Proof.
  assert (forall force a now0 now1,
    let (st1, effects) := sync c force st a now0 now1 in
    (length (loopSeeksOf (map (pair now1) effects)) = 0%nat /\
     _looping st1 = _looping st) \/
    (_looping st = false /\ _looping st1 = true /\
     length (loopSeeksOf (map (pair now1) effects)) = 1%nat)) as Hsync.
  { intros force a now0 now1.
    pose proof (sync_looping c force st a now0 now1) as H.
    destruct (sync c force st a now0 now1) as [st1 effects].
    rewrite loopSeeksOf_stamped.
    destruct H as [[-> H]|H]; [left; now split|now right]. }
  intros Hev.
  destruct ev as [a now0 now1|a now0 now1|offset a now0 now1|];
    [| | |contradiction]; simpl.
  - specialize (Hsync false a now0 now1).
    now destruct (sync c false st a now0 now1).
  - specialize (Hsync true a now0 now1).
    now destruct (sync c true st a now0 now1).
  - unfold seek.
    destruct (Audio.paused (Audio.setCurrentTime a (seekPosition a offset))).
    + left. split; reflexivity.
    + specialize (Hsync true (Audio.setCurrentTime a (seekPosition a offset))
                        now0 now1).
      now destruct (sync c true st _ now0 now1).
Qed.

Lemma run_looping c (evs : list Event) :
  forall st,
    Forall notLoopTimer evs ->
    (_looping st = true ->
     length (loopSeeksOf (snd (run c st evs))) = 0%nat) /\
    (length (loopSeeksOf (snd (run c st evs))) <= 1)%nat.
Proof.
  induction evs as [|ev evs IH]; intros st Hall.
  - simpl. split; [reflexivity|lia].
  - inversion Hall as [|? ? Hev Hall']; subst. simpl.
    pose proof (step_looping c st ev Hev) as Hstep.
    destruct (step c st ev) as [st1 log1].
    destruct (IH st1 Hall') as [IH1 IH2].
    destruct (run c st1 evs) as [st2 log2]. simpl in *.
    unfold loopSeeksOf in *. rewrite filter_app, length_app.
    destruct Hstep as [[-> Hl]|(Hf & Ht & ->)].
    + rewrite Hl in IH1. split; [exact IH1|exact IH2].
    + rewrite (IH1 Ht). split; [congruence|lia].
Qed.

(** X13.  As long as the callback of the loop timer has not run, a run of
    the engine performs at most one loop seek, however many ticks, starts
    of playback and seeks by the caller it handles; started with the
    looping flag up it performs none. *)
Theorem run_one_loop_seek_per_window (c : Component) (st : SyncState)
  (evs : list Event) (Hwindow : Forall notLoopTimer evs) :
  (length (loopSeeksOf (snd (run c st evs))) <= 1)%nat /\
  (_looping st = true -> loopSeeksOf (snd (run c st evs)) = []).
Proof.
  destruct (run_looping c evs st Hwindow) as [H1 H2].
  split; [exact H2|].
  intros Hl. apply length_zero_iff_nil. now apply H1.
Qed.

Lemma run_one_loop_seek_per_window_witness :
  (length (loopSeeksOf (snd (run desktop initialState twoTicksNearEnd))) <= 1)%nat.
Proof.
  apply (run_one_loop_seek_per_window desktop initialState twoTicksNearEnd).
  repeat constructor.
Defined.

(** ** The progress bar: results *)

(** X14.  The width that [updateProgress] writes lies between 0 and 100
    percent; for a position within a media of known, positive duration it
    is [currentTime / duration * 100]; nothing is written without a bar or
    while the duration is NaN or 0. *)
Theorem updateProgress_bounds (hasProgressFill : bool) (a : Audio.t) :
  (forall w, updateProgress hasProgressFill a = Some w ->
             0 <= w /\ w <= 100) /\
  (forall d, hasProgressFill = true -> Audio.duration a = DurSeconds d ->
             0 < d -> 0 <= Audio.currentTime a -> Audio.currentTime a <= d ->
             exists w, updateProgress hasProgressFill a = Some w /\
                       w == Audio.currentTime a / d * 100) /\
  (updateProgress hasProgressFill a = None <->
   hasProgressFill = false \/ Audio.duration a = DurNaN \/
   exists d, Audio.duration a = DurSeconds d /\ d == 0).
Proof.
  assert (forall x, 0 <= Qmin 100 (Qmax 0 x) /\ Qmin 100 (Qmax 0 x) <= 100)
    as Hclamp.
  { intros x.
    destruct (Qmin_cases 100 (Qmax 0 x)) as [[-> ?]|[-> ?]];
      destruct (Qmax_cases 0 x) as [[E ?]|[E ?]];
      try rewrite E in *; split; lra. }
  unfold updateProgress. split; [|split].
  - intros w.
    destruct hasProgressFill; simpl; [|discriminate].
    destruct (Audio.duration a) as [| |d]; [discriminate| |].
    + intros [= <-]. apply Hclamp.
    + destruct (Qeq_bool d 0); [discriminate|].
      intros [= <-]. apply Hclamp.
  - intros d -> -> Hd H0 Hle. simpl.
    destruct (Qeq_bool d 0) eqn:E.
    { apply Qeq_bool_iff in E. lra. }
    eexists. split; [reflexivity|].
    assert (0 <= Audio.currentTime a / d * 100 /\
            Audio.currentTime a / d * 100 <= 100) as [Hlo Hhi].
    { assert (0 <= Audio.currentTime a / d) as H1
        by (apply Qle_shift_div_l; lra).
      assert (Audio.currentTime a / d <= 1) as H2
        by (apply Qle_shift_div_r; lra).
      split; lra. }
    destruct (Qmin_cases 100 (Qmax 0 (Audio.currentTime a / d * 100)))
      as [[-> ?]|[-> ?]];
      destruct (Qmax_cases 0 (Audio.currentTime a / d * 100))
        as [[E1 ?]|[E1 ?]]; try rewrite E1 in *; lra.
  - destruct hasProgressFill; simpl.
    + destruct (Audio.duration a) as [| |d].
      * split; [intros _; right; now left|reflexivity].
      * split; [discriminate|].
        intros [H|[H|(d & H & _)]]; discriminate.
      * destruct (Qeq_bool d 0) eqn:E.
        -- split; [|reflexivity]. intros _. right. right. exists d.
           split; [reflexivity|]. now apply Qeq_bool_iff.
        -- split; [discriminate|].
           intros [H|[H|(d' & [= <-] & H)]]; try discriminate.
           apply Qeq_bool_iff in H. congruence.
    + split; [intros _; now left|reflexivity].
Qed.

Lemma progressDue_last (ps ps' : ProgressState) (t : Q) :
  _lastProgressUpdate ps' = _lastProgressUpdate ps ->
  progressDue ps' t = progressDue ps t.
Proof. unfold progressDue. now intros ->. Qed.

Lemma progressDue_after (ps : ProgressState) (l t : Q) :
  _lastProgressUpdate ps = Some l -> ~ l == 0 ->
  progressDue ps t = true -> throttled l t.
Proof.
  unfold progressDue, throttled. intros -> Hl. simpl.
  destruct (Qeq_bool l 0) eqn:E; [apply Qeq_bool_iff in E; contradiction|].
  simpl. intros H. apply Qle_bool_iff in H. lra.
Qed.

Lemma progressDue_chain (ps : ProgressState) (t1 t2 : Q) :
  progressDue ps t1 = true -> throttled t1 t2 -> progressDue ps t2 = true.
Proof.
  unfold progressDue, throttled.
  destruct (_lastProgressUpdate ps) as [l|]; simpl; [|reflexivity].
  destruct (Qeq_bool l 0); simpl; [reflexivity|].
  intros H1 H2. apply Qle_bool_iff in H1. apply Qle_bool_iff. lra.
Qed.

Lemma animateProgress_last (ps : ProgressState) (now : Q) :
  let '(ps1, updated, _) := animateProgress ps now in
  (updated = false /\ _lastProgressUpdate ps1 = _lastProgressUpdate ps) \/
  (updated = true /\ progressDue ps now = true /\
   _lastProgressUpdate ps1 = Some now).
Proof.
  unfold animateProgress.
  destruct (_progressAnimationActive ps); simpl; [|left; now split].
  destruct (progressDue ps now); [right|left]; repeat split; reflexivity.
Qed.

Lemma progressStep_last (ps : ProgressState) (ev : ProgressEvent) :
  let (ps1, ts) := progressStep ps ev in
  (ts = [] /\ _lastProgressUpdate ps1 = _lastProgressUpdate ps) \/
  (exists now, progressClock ev = Some now /\ ts = [now] /\
     progressDue ps now = true /\ _lastProgressUpdate ps1 = Some now).
Proof.
  destruct ev as [now|now|]; simpl.
  - unfold startProgressUpdates.
    pose proof (animateProgress_last
                  (mkProgress true (_lastProgressUpdate (stopProgressUpdates ps)))
                  now) as H.
    destruct (animateProgress _ now) as [[ps1 updated] requested].
    destruct H as [[-> H]|(-> & Hd & H)]; [left; now split|].
    right. exists now. repeat split; assumption.
  - pose proof (animateProgress_last ps now) as H.
    destruct (animateProgress ps now) as [[ps1 updated] requested].
    destruct H as [[-> H]|(-> & Hd & H)]; [left; now split|].
    right. exists now. repeat split; assumption.
  - left. split; reflexivity.
Qed.

Lemma progressRun_throttled (evs : list ProgressEvent) :
  forall ps,
    Forall (fun ev => forall now, progressClock ev = Some now -> ~ now == 0)
           evs ->
    StronglySorted throttled (snd (progressRun ps evs)) /\
    Forall (fun t => progressDue ps t = true) (snd (progressRun ps evs)).
Proof.
  induction evs as [|ev evs IH]; intros ps Hclk.
  - simpl. split; constructor.
  - inversion Hclk as [|? ? Hev Hclk']; subst. simpl.
    pose proof (progressStep_last ps ev) as Hstep.
    destruct (progressStep ps ev) as [ps1 ts1].
    specialize (IH ps1 Hclk').
    destruct (progressRun ps1 evs) as [ps2 ts2]. simpl in *.
    destruct IH as [Hsorted Hall].
    destruct Hstep as [[-> Hl]|(now & Hc & -> & Hd & Hl)]; simpl.
    + split; [exact Hsorted|].
      eapply Forall_impl; [|exact Hall].
      intros t Ht. now rewrite <- (progressDue_last ps ps1 t Hl).
    + assert (Forall (throttled now) ts2) as Hgap.
      { eapply Forall_impl; [|exact Hall].
        intros t Ht. apply (progressDue_after ps1 now t Hl); [|exact Ht].
        now apply Hev. }
      split; constructor; try assumption.
      eapply Forall_impl; [|exact Hgap].
      intros t Ht. now apply (progressDue_chain ps now).
Qed.

(** X15.  Whatever the frame rate and however the updates are started and
    stopped, two successive updates of the progress bar are at least
    100 ms apart (the readings of [performance.now()] being non-zero). *)
Theorem progress_updates_throttled (evs : list ProgressEvent)
  (Hclock : Forall (fun ev => forall now, progressClock ev = Some now ->
                                          ~ now == 0) evs) :
  StronglySorted throttled (snd (progressRun initialProgress evs)).
Proof.
  apply (progressRun_throttled evs initialProgress Hclock).
Qed.

Lemma progress_updates_throttled_witness :
  snd (progressRun initialProgress sixtyHertz) = [5000; 5100] /\
  StronglySorted throttled (snd (progressRun initialProgress sixtyHertz)).
Proof.
  split; [reflexivity|].
  apply (progress_updates_throttled sixtyHertz).
  repeat constructor; simpl; intros now [= <-]; discriminate.
Defined.

(** ** The debug overlay: results *)

(** X16.  The overlay shows "in sync" exactly when the drift would not make
    an unforced [sync] correct, and its three grades never improve as the
    absolute drift grows. *)
Theorem syncStatus_grades (c : Component) :
  (forall drift,
      syncStatus c drift = InSync <-> driftExceeds c drift = false) /\
  (forall d1 d2,
      Qabs d1 <= Qabs d2 ->
      (severity (syncStatus c d1) <= severity (syncStatus c d2))%nat).
Proof.
  split.
  - intros drift. unfold syncStatus, driftExceeds.
    rewrite Qltb_false_iff.
    destruct (Qle_bool (Qabs drift) (allowed c)) eqn:E.
    + apply Qle_bool_iff in E. tauto.
    + split.
      * destruct (Qle_bool (Qabs drift) (allowed c * 2)); discriminate.
      * intros H. apply Qle_bool_iff in H. congruence.
  - intros d1 d2 Hle. unfold syncStatus.
    destruct (Qle_bool (Qabs d2) (allowed c)) eqn:E2.
    + apply Qle_bool_iff in E2.
      assert (Qle_bool (Qabs d1) (allowed c) = true) as ->
        by (apply Qle_bool_iff; lra).
      simpl. lia.
    + destruct (Qle_bool (Qabs d2) (allowed c * 2)) eqn:E3.
      * apply Qle_bool_iff in E3.
        destruct (Qle_bool (Qabs d1) (allowed c)); [simpl; lia|].
        assert (Qle_bool (Qabs d1) (allowed c * 2) = true) as ->
          by (apply Qle_bool_iff; lra).
        simpl. lia.
      * destruct (Qle_bool (Qabs d1) (allowed c)); [simpl; lia|].
        destruct (Qle_bool (Qabs d1) (allowed c * 2)); simpl; lia.
Qed.

(** X17.  Whenever the position is where the loop detection of [sync]
    fires, the overlay shows "looping"; it shows the same while the
    duration is still NaN; and with a known, non-zero duration it shows
    "playing" exactly when more than a second remains. *)
Theorem loopStatus_agrees (a : Audio.t) :
  (nearLoopEnd a = true -> loopStatus a = Looping) /\
  (Audio.duration a = DurNaN -> loopStatus a = Looping) /\
  (forall d, Audio.duration a = DurSeconds d -> ~ d == 0 ->
             (loopStatus a = Playing <-> 1 < d - Audio.currentTime a)).
Proof.
  split; [|split].
  - intros H. apply nearLoopEnd_iff in H.
    destruct H as (d & Hd & Hnz & _ & Hle).
    unfold loopStatus. rewrite Hd.
    destruct (Qeq_bool d 0) eqn:E; [apply Qeq_bool_iff in E; contradiction|].
    unfold loopStatusOf. apply Qle_bool_iff in Hle. now rewrite Hle.
  - intros H. unfold loopStatus. now rewrite H.
  - intros d Hd Hnz. unfold loopStatus. rewrite Hd.
    destruct (Qeq_bool d 0) eqn:E; [apply Qeq_bool_iff in E; contradiction|].
    unfold loopStatusOf.
    destruct (Qle_bool (d - Audio.currentTime a) 0.1) eqn:E1.
    + apply Qle_bool_iff in E1. split; [discriminate|]. lra.
    + destruct (Qle_bool (d - Audio.currentTime a) 1) eqn:E2.
      * apply Qle_bool_iff in E2. split; [discriminate|]. lra.
      * split; [|reflexivity]. intros _.
        apply Qnot_le_lt. intros H. apply Qle_bool_iff in H. congruence.
Qed.

(** ** Recovery: results *)

(** X18.  The seek that ends a stuck recovery goes only to a positive
    position, which is the current position or lies at or before the
    target; to the target itself when a buffered range holds a positive
    target; and with nothing buffered it never moves the position. *)
Theorem recoverySeek_cases (a : Audio.t) (target : Q) :
  (forall p, recoverySeek a target = Some p ->
             0 < p /\ (p = Audio.currentTime a \/ p <= target)) /\
  (Exists (contains target) (Audio.buffered a) -> 0 < target ->
   recoverySeek a target = Some target) /\
  (Audio.buffered a = [] ->
   recoverySeek a target = None \/
   recoverySeek a target = Some (Audio.currentTime a)).
Proof.
  unfold recoverySeek. cbv zeta. split; [|split].
  - intros p.
    destruct (Qltb 0 (findSafeSeekPosition a target)) eqn:E; [|discriminate].
    intros [= <-]. apply Qltb_iff in E. split; [exact E|].
    apply findSafeSeekPosition_le.
  - intros Hc Hpos.
    rewrite findSafeSeekPosition_loop, (safeSeekLoop_contains _ _ _ Hc).
    apply Qltb_iff in Hpos. now rewrite Hpos.
  - intros Hb. unfold findSafeSeekPosition. rewrite Hb.
    destruct (Qltb 0 (Audio.currentTime a)); [now right|now left].
Qed.

Lemma recoverySeek_cases_witness :
  recoverySeek reloaded 18 = Some 18.
Proof.
  apply (proj1 (proj2 (recoverySeek_cases reloaded 18))); [|reflexivity].
  apply Exists_cons_hd. split; discriminate.
Defined.

(** ** Configuration and latency: results *)

(** X19.  [connectedCallback] never leaves a zero loop duration or a zero
    base tolerance; a positive [duration] attribute [d] puts every target
    position in [[0, d)], and a missing, zero or non-numeric one puts it
    in [[0, 1800)]. *)
Theorem connectedCallback_loop
  (attr_duration attr_allowed attr_latency attr_offset : option Q)
  (android ios : bool) (ios_lag and_lag : Q) :
  let c := connectedCallback attr_duration attr_allowed attr_latency
             attr_offset android ios ios_lag and_lag in
  (~ duration c == 0 /\ ~ baseAllowed c == 0) /\
  (forall d now, attr_duration = Some d -> 0 < d ->
                 0 <= targetTime c now /\ targetTime c now < d) /\
  (forall now,
      attr_duration = None \/ (exists d, attr_duration = Some d /\ d == 0) ->
      0 <= targetTime c now /\ targetTime c now < 1800).
Proof.
  assert (forall attr dflt, ~ dflt == 0 -> ~ num_or attr dflt == 0) as Hnz.
  { intros attr dflt Hd. unfold num_or.
    destruct attr as [q|]; [|exact Hd].
    destruct (Qeq_bool q 0) eqn:E; [exact Hd|].
    intros H. apply Qeq_bool_iff in H. congruence. }
  cbv zeta. split; [|split].
  - split; apply Hnz; discriminate.
  - intros d now -> Hd.
    rewrite targetTime_refines. unfold ClockSpec.targetPosition.
    assert (num_or (Some d) 1800 = d) as E.
    { unfold num_or. destruct (Qeq_bool d 0) eqn:E; [|reflexivity].
      apply Qeq_bool_iff in E. lra. }
    cbn [duration connectedCallback]. rewrite E.
    apply normalize_range, Hd.
  - intros now H.
    rewrite targetTime_refines. unfold ClockSpec.targetPosition.
    assert (num_or attr_duration 1800 = 1800) as E.
    { destruct H as [->|(d & -> & Hd)]; [reflexivity|].
      unfold num_or. apply Qeq_bool_iff in Hd. now rewrite Hd. }
    cbn [duration connectedCallback]. rewrite E.
    apply normalize_range. reflexivity.
Qed.

Lemma connectedCallback_loop_witness :
  0 <= targetTime (connectedCallback (Some 120) None None None
                     false false (-1) 0) 905200 /\
  targetTime (connectedCallback (Some 120) None None None
                false false (-1) 0) 905200 < 120.
Proof.
  apply (proj1 (proj2 (connectedCallback_loop (Some 120) None None None
                         false false (-1) 0)) 120 905200%Z eq_refl).
  reflexivity.
Defined.



(** ** Stuck detection: further results *)

(** X21.  A call of [sync] that finds the audio paused, the source not an
    MP3, the position at or beyond 2 s, or the position different from a
    non-zero last position, sets the stuck counter to zero, records the
    position as the last one, and invokes no recovery. *)
Theorem sync_resets_stuck_counter (c : Component) (force : bool)
  (st : SyncState) (a : Audio.t) (now0 now1 : Z)
  (Hreset : Audio.paused a = true \/
            Audio.src_includes_mp3 a = false \/
            2 <= Audio.currentTime a \/
            (truthy (_lastCurrentTime st) = true /\
             strictEq (_lastCurrentTime st) (Audio.currentTime a) = false)) :
  _stuckCount (fst (sync c force st a now0 now1)) = Some 0%Z /\
  _lastCurrentTime (fst (sync c force st a now0 now1)) =
    Some (Audio.currentTime a) /\
  forall target, ~ In (RecoverFromStuck target)
                      (snd (sync c force st a now0 now1)).
Proof.
  assert (stuckNow st a = false) as Es.
  { unfold stuckNow.
    destruct Hreset as [H|[H|[H|[H1 H2]]]].
    - rewrite H. simpl. now rewrite andb_false_r.
    - now rewrite H.
    - apply Qltb_false_iff in H. rewrite H. apply andb_false_r.
    - unfold primedLastTime. rewrite H1, andb_false_r, H2.
      now rewrite andb_false_r. }
  destruct (sync_not_stuck c force st a now0 now1 Es) as [H1 H2].
  split; [exact H1|]. split; [exact H2|].
  intros target.
  destruct (nearLoopEnd a && negb (_looping st)) eqn:El.
  - rewrite (sync_loop _ _ _ _ _ _ Es El). simpl.
    intros [H|[H|[]]]; discriminate.
  - rewrite (sync_correction _ _ _ _ _ _ Es El). cbv zeta.
    destruct ((force || driftExceeds c _) && seekAllowed st now1); simpl;
      [|intros H; exact H].
    unfold correction, mp3Correction.
    repeat match goal with
           | |- context [if ?b then _ else _] => destruct b
           end; simpl; intros H;
      repeat (destruct H as [H|H]; [discriminate|]); exact H.
Qed.

Lemma sync_resets_stuck_counter_witness :
  _stuckCount (fst (sync desktop false
                      (fst (run desktop initialState tenTicksAtZero))
                      (Audio.mk 0 true DurNaN [] true) 1000016 1000016))
  = Some 0%Z.
Proof.
  apply (sync_resets_stuck_counter desktop false
           (fst (run desktop initialState tenTicksAtZero))
           (Audio.mk 0 true DurNaN [] true) 1000016 1000016).
  left. reflexivity.
Defined.

Lemma run_stalled_recovers_witness :
  snd (run desktop initialState
         (tenTicksAtZero ++ [Tick (mp3At 0) 1000016 1000016])) =
    [(1000016%Z, RecoverFromStuck (targetTime desktop 1000016))] /\
  _stuckCount (fst (run desktop initialState
                      (tenTicksAtZero ++ [Tick (mp3At 0) 1000016 1000016])))
    = Some 0%Z.
Proof.
  apply (run_stalled_recovers desktop 0 tenTicksAtZero initialState
           (mp3At 0) 1000016 1000016).
  - reflexivity.
  - unfold tenTicksAtZero. simpl.
    repeat constructor; reflexivity.
  - reflexivity.
  - repeat split; reflexivity.
  - left. reflexivity.
  - reflexivity.
Defined.

Lemma findSafeSeekPosition_buffered_when_roomy_witness :
  isPositionBuffered scenario3 (findSafeSeekPosition scenario3 30) = true.
Proof.
  apply (findSafeSeekPosition_buffered_when_roomy scenario3 30).
  - repeat constructor; unfold roomy; simpl; lra.
  - right. apply Exists_cons_tl, Exists_cons_hd. split; simpl; lra.
Defined.
